(** * The LS solver interface of CVXPY (cvxpy/problems/solvers/ls_intf.py)

    A shallow embedding of the least-squares solver adapter: the
    applicability check [suitable], the variable indexing routine
    [get_var_offsets], the assembly of the saddle-point system and the
    post-processing in [solve], and [format_results].

    Conventions.
    - Scalars are an abstract carrier with the operations the Python code
      applies to them (a class [Scalar]); no law is assumed of them unless a
      theorem says so, so the structural results hold for any arithmetic.
    - A matrix is the list of its rows.  scipy and numpy raise ValueError or
      IndexError on ill-shaped operands; the collaborators' interface fixes
      the shapes, and the theorems that depend on them carry the shapes as
      hypotheses ([has_shape]).
    - The three collaborators of [solve] (quadratic and affine coefficient
      extraction, the sparse direct solver) are fields of the records
      [Utilities] and [SparseLinalg].
    - Python exceptions are values of [exn]; a call that may raise returns
      [res]. *)

From Stdlib Require Import List ZArith Lia QArith Qcanon.
From stdpp Require Import gmap strings list fin_maps.

Open Scope nat_scope.

(** ** cvxpy.settings *)

Module s.
(** Modelled from the spec: the keys and status strings of cvxpy.settings,
    which is not among the sources; the result mapping has four distinct
    string keys and the two status strings "optimal" and "infeasible". *)
Definition STATUS : string := "status".
Definition VALUE : string := "value".
Definition PRIMAL : string := "primal".
Definition EQ_DUAL : string := "eq_dual".
Definition OPTIMAL : string := "optimal".
Definition INFEASIBLE : string := "infeasible".
End s.

(** ** Python exceptions *)

(** The exception classes a numerical routine can raise.  [ArithmeticError]
    is the base class of [FloatingPointError], [OverflowError] and
    [ZeroDivisionError]. *)
Inductive exn : Type :=
  | ArithmeticError
  | FloatingPointError
  | OverflowError
  | ZeroDivisionError
  | ValueError
  | IndexError
  | TypeError
  | RuntimeError
  | MemoryError
  | LinAlgError.

(** [isinstance(e, ArithmeticError)], the test of [except ArithmeticError]. *)
Definition isinstance_ArithmeticError (e : exn) : bool :=
  match e with
  | ArithmeticError | FloatingPointError | OverflowError | ZeroDivisionError => true
  | _ => false
  end.

Inductive res (A : Type) : Type :=
  | Ok (a : A)
  | Raise (e : exn).
Arguments Ok {A} a.
Arguments Raise {A} e.

(** ** Scalars and Python values *)

Class Scalar (R : Type) : Type := {
  R0 : R;                 (* the literal 0 and the entries of a None block *)
  R2 : R;                 (* the literal 2 *)
  Radd : R -> R -> R;
  Rmul : R -> R -> R;
  Rdiv : R -> R -> R;
  Ropp : R -> R
}.

(** The values stored in the result dictionary. *)
Inductive pyval (R : Type) : Type :=
  | PyNone
  | PyStr (str : string)
  | PyFloat (v : R)
  | PyArray (a : list R).
Arguments PyNone {R}.
Arguments PyStr {R} str.
Arguments PyFloat {R} v.
Arguments PyArray {R} a.

Definition py_of_array {R} (x : option (list R)) : pyval R :=
  match x with Some a => PyArray a | None => PyNone end.

Definition py_of_float {R} (x : option R) : pyval R :=
  match x with Some v => PyFloat v | None => PyNone end.

(** ** LS.format_results *)

Definition format_results {R} (x nu : option (list R)) (p_star : option R)
  : gmap string (pyval R) :=
  let new_results : gmap string (pyval R) := ∅ in
  match x with
  | Some _ =>
      let new_results := <[s.VALUE := py_of_float p_star]> new_results in
      let new_results := <[s.STATUS := PyStr s.OPTIMAL]> new_results in
      let new_results := <[s.PRIMAL := py_of_array x]> new_results in
      let new_results := <[s.EQ_DUAL := py_of_array nu]> new_results in
      new_results
  | None =>
      <[s.STATUS := PyStr s.INFEASIBLE]> new_results
  end.

(** ** Dense model of the scipy/numpy matrices *)

Section Matrices.
Context {R : Type} `{Scalar R}.

Definition matrix : Type := list (list R).

Definition nrows (A : matrix) : nat := length A.
Definition ncols (A : matrix) : nat :=
  match A with [] => 0 | row :: _ => length row end.

(** [A.shape == (m, n)] *)
Definition has_shape (m n : nat) (A : matrix) : bool :=
  (length A =? m) && forallb (fun row => length row =? n) A.

(** [A[i, j]] *)
Definition entry (A : matrix) (i j : nat) : R := nth j (nth i A []) R0.

(** [A[:r, :c]] *)
Definition slice_block (A : matrix) (r c : nat) : matrix :=
  map (firstn c) (firstn r A).

(** [A[:r, j]]: a column matrix with one entry per row. *)
Definition slice_col (A : matrix) (r j : nat) : matrix :=
  map (fun row => [nth j row R0]) (firstn r A).

(** [A[i, :c]]: a matrix with the single row [i]. *)
Definition slice_row (A : matrix) (i c : nat) : matrix :=
  [firstn c (nth i A [])].

(** [A.transpose()] *)
Definition transpose (A : matrix) : matrix :=
  map (fun j => map (fun row => nth j row R0) A) (seq 0 (ncols A)).

(** [A + B], [A / c], [-A], elementwise *)
Definition madd (A B : matrix) : matrix :=
  zip_with (zip_with Radd) A B.
Definition mdiv (A : matrix) (c : R) : matrix :=
  map (map (fun a => Rdiv a c)) A.
Definition mneg (A : matrix) : matrix :=
  map (map Ropp) A.

(** [sp.vstack] and [np.vstack]: the rows of the blocks, in order. *)
Definition vstack (blocks : list matrix) : matrix := concat blocks.

(** Blocks side by side, row by row. *)
Definition hstack (A B : matrix) : matrix := zip_with app A B.

Definition zeros (m n : nat) : matrix := repeat (repeat R0 n) m.

(** [sp.bmat([[A00, A01], [A10, None]])].  The None block is the zero block
    with as many rows as [A10] and as many columns as [A01]; in the call of
    [solve], [A01] is [A10.transpose()], whose number of columns is the
    number of rows of [A10]. *)
Definition bmat (A00 A01 A10 : matrix) : matrix :=
  vstack [hstack A00 A01; hstack A10 (zeros (nrows A10) (nrows A10))].

(** [np.dot(u, v)] of two vectors: the products summed from the left. *)
Definition dot (u v : list R) : R :=
  fold_left Radd (zip_with Rmul u v) R0.

(** [A * x] and [np.dot(A, x)] of a matrix and a vector. *)
Definition matvec (A : matrix) (x : list R) : list R :=
  map (fun row => dot row x) A.

(** A vector as the column matrix of the same entries. *)
Definition column (x : list R) : matrix := map (fun a => [a]) x.
End Matrices.
Arguments matrix R : clear implicits.

(** ** The collaborators of [solve] *)

(** [u.quad_coeffs(expr, id_map, N)[0]] and [u.affine_coeffs(expr, id_map, N)]
    of cvxpy.utilities. *)
Record Utilities (R expr : Type) : Type := {
  quad_coeffs : expr -> gmap Z nat -> nat -> matrix R;
  affine_coeffs : expr -> gmap Z nat -> nat -> matrix R * matrix R
}.
Arguments quad_coeffs {R expr} _ _ _ _.
Arguments affine_coeffs {R expr} _ _ _.

(** [SLA.spsolve(A, b)] of scipy.sparse.linalg: the solution vector, or an
    exception. *)
Record SparseLinalg (R : Type) : Type := {
  spsolve : matrix R -> matrix R -> res (list R)
}.
Arguments spsolve {R} _ _ _.

(** ** Variables and FakeSymData *)

(** A variable, as the indexing routine sees it: [x.id] and [x.size]. *)
Module var.
Record Var : Type := {
  id : Z;
  size : nat * nat
}.
End var.
Abbreviation Var := var.Var.

Record SymData (constr : Type) : Type := {
  constr_map_EQ : list constr;
  var_offsets : gmap Z nat;
  var_sizes : gmap Z (nat * nat);
  x_length : nat
}.
Arguments constr_map_EQ {constr} _.
Arguments var_offsets {constr} _.
Arguments var_sizes {constr} _.
Arguments x_length {constr} _.

(** [x.size[0]*x.size[1]] *)
Definition flat_size (x : Var) : nat :=
  fst (var.size x) * snd (var.size x).

(** FakeSymData.get_var_offsets: the loop over [variables] threads the two
    dictionaries and [vert_offset]. *)
Definition get_var_offsets (variables : list Var)
  : gmap Z nat * gmap Z (nat * nat) * nat :=
  fold_left
    (fun '(var_offsets, var_sizes, vert_offset) x =>
       (<[var.id x := vert_offset]> var_offsets,
        <[var.id x := var.size x]> var_sizes,
        vert_offset + flat_size x))
    variables (∅, ∅, 0).

(** The integer range of a variable under an offset map: [k] lies in it when
    the variable has an offset [o] and [o <= k < o + x.size[0]*x.size[1]]. *)
Definition in_range (offsets : gmap Z nat) (x : Var) (k : nat) : Prop :=
  exists o, offsets !! var.id x = Some o /\ o <= k < o + flat_size x.

(** The total flattened size of the first [i] variables. *)
Definition prefix_size (variables : list Var) (i : nat) : nat :=
  sum_list_with flat_size (take i variables).

(** ** LS.solve *)

Record Objective (expr : Type) : Type := { args0 : expr }.
Record Constraint (expr : Type) : Type := { _expr : expr }.
Arguments args0 {expr} _.
Arguments _expr {expr} _.

Section Solve.
Context {R : Type} `{Scalar R} {expr : Type}.
Variable u : Utilities R expr.
Variable SLA : SparseLinalg R.

(** [P = M[:N, :N]] *)
Definition quad_P (M : matrix R) (N : nat) : matrix R := slice_block M N N.

(** [q = (M[:N, N] + M[N, :N].transpose())/2] *)
Definition quad_q (M : matrix R) (N : nat) : matrix R :=
  mdiv (madd (slice_col M N N) (transpose (slice_row M N N))) R2.

(** [r = M[N, N]] *)
Definition quad_r (M : matrix R) (N : nat) : R := entry M N N.

(** The branch [len(constraints) > 0]: the stacked coefficients and the
    block system. *)
Definition assemble (P q : matrix R) (Cs : list (matrix R * matrix R))
  : matrix R * matrix R :=
  let As := vstack (map fst Cs) in
  let bs := vstack (map snd Cs) in
  let AA := bmat P (transpose As) As in
  let BB := vstack [mneg q; mneg bs] in
  (AA, BB).

(** The body of the [try]: the split of the solution and the value. *)
Definition primal (N : nat) (BB : list R) : list R := firstn N BB.
Definition dual (N : nat) (BB : list R) : list R := skipn N BB.

Definition objective_value (P q : matrix R) (r : R) (x : list R) : R :=
  let s := dot x (matvec P x) in
  let t : matrix R := [matvec (transpose q) x] in
  Radd (entry (map (map (fun tij => Radd s (Rmul R2 tij))) t) 0 0) r.

(** What [solve] does with the outcome of [SLA.spsolve]: the [try] body on
    a solution, the handler on an ArithmeticError; any other exception is
    not caught. *)
Definition solve_outcome (N : nat) (P q : matrix R) (r : R)
    (out : res (list R))
  : res (option (list R) * option (list R) * option R) :=
  match out with
  | Ok BB =>
      let x := primal N BB in
      let nu := dual N BB in
      let p_star := objective_value P q r x in
      Ok (Some x, Some nu, Some p_star)
  | Raise e =>
      if isinstance_ArithmeticError e then Ok (None, None, None)
      else Raise e
  end.

(** The linear system handed to the solver. *)
Definition solve_system (objective : Objective expr)
    (constraints : list (Constraint expr))
    (sym_data : SymData (Constraint expr)) : matrix R * matrix R :=
  let id_map := var_offsets sym_data in
  let N := x_length sym_data in
  let M := quad_coeffs u (args0 objective) id_map N in
  let P := quad_P M N in
  let q := quad_q M N in
  if 0 <? length constraints then
    let Cs := map (fun c => affine_coeffs u (_expr c) id_map N) constraints in
    assemble P q Cs
  else
    (P, mneg q).

(** The primal, the dual and the value that [solve] passes on. *)
Definition solve_triple (objective : Objective expr)
    (constraints : list (Constraint expr))
    (sym_data : SymData (Constraint expr))
  : res (option (list R) * option (list R) * option R) :=
  let id_map := var_offsets sym_data in
  let N := x_length sym_data in
  let M := quad_coeffs u (args0 objective) id_map N in
  let P := quad_P M N in
  let q := quad_q M N in
  let r := quad_r M N in
  let '(AA, BB) := solve_system objective constraints sym_data in
  solve_outcome N P q r (spsolve SLA AA BB).

Definition solve (objective : Objective expr)
    (constraints : list (Constraint expr))
    (sym_data : SymData (Constraint expr))
  : res (gmap string (pyval R)) :=
  match solve_triple objective constraints sym_data with
  | Ok (x, nu, p_star) => Ok (format_results x nu p_star)
  | Raise e => Raise e
  end.
End Solve.

(** The primal solution and the objective value of a result of [solve], as
    the entries of the result mapping (None for an absent key). *)
Definition primal_and_value {R} (out : res (gmap string (pyval R)))
  : res (option (pyval R) * option (pyval R)) :=
  match out with
  | Ok d => Ok (d !! s.PRIMAL, d !! s.VALUE)
  | Raise e => Raise e
  end.

(** ** Reference definitions for the properties of [solve] *)

Section Reference.
Context {R : Type} `{Scalar R}.

(** [f 0 + ... + f (n-1)], summed from the left. *)
Definition sum_upto (n : nat) (f : nat -> R) : R :=
  fold_left (fun acc i => Radd acc (f i)) (seq 0 n) R0.

(** The [m] by [n] matrix of the entries [f i j]. *)
Definition tabulate (m n : nat) (f : nat -> nat -> R) : matrix R :=
  map (fun i => map (fun j => f i j) (seq 0 n)) (seq 0 m).

(** The elementwise average of the first [N] entries of the last column of
    [M] and of its last row. *)
Definition last_col_row_average (M : matrix R) (N : nat) : list R :=
  map (fun i => Rdiv (Radd (entry M i N) (entry M N i)) R2) (seq 0 N).

(** The saddle-point matrix [[P, As^T], [As, 0]] of an [N] by [N] matrix [P]
    and an [m] by [N] matrix [As], entry by entry. *)
Definition kkt_matrix (N m : nat) (P As : matrix R) : matrix R :=
  tabulate (N + m) (N + m)
    (fun i j =>
       if i <? N then
         if j <? N then entry P i j else entry As (j - N) i
       else
         if j <? N then entry As (i - N) j else R0).

(** The right-hand side [-q; -bs] as a column. *)
Definition kkt_rhs (N m : nat) (q bs : matrix R) : matrix R :=
  tabulate (N + m) 1
    (fun i _ =>
       if i <? N then Ropp (entry q i 0) else Ropp (entry bs (i - N) 0)).

(** [x^T P x + 2 q^T x + r] over the first [N] entries of [x]. *)
Definition quadratic_value (N : nat) (P q : matrix R) (r : R) (x : list R)
  : R :=
  Radd
    (Radd
       (sum_upto N (fun i =>
          Rmul (nth i x R0)
               (sum_upto N (fun j => Rmul (entry P i j) (nth j x R0)))))
       (Rmul R2 (sum_upto N (fun i => Rmul (entry q i 0) (nth i x R0)))))
    r.

(** The shapes of the coefficients of one constraint with at least one row:
    [A] is [m_i] by [N] and [b] is [m_i] by 1. *)
Definition coeffs_ok (N : nat) (C : matrix R * matrix R) : bool :=
  (0 <? length (fst C))
  && has_shape (length (fst C)) N (fst C)
  && has_shape (length (fst C)) 1 (snd C).
End Reference.

(** ** LS.suitable *)

(** Modelled from the spec: the classes of cvxpy.expressions.variables, which
    are not among the sources; the allowed kinds are the plain variable and
    the symmetric-upper-triangular variable, any other class is named. *)
Inductive var_type : Type :=
  | var_Variable
  | var_SymmetricUpperTri
  | var_other (cls : string).

(** The objects [suitable] inspects, each as the record of what the method
    calls and type tests of the code observe of it. *)
Record Expression : Type := {
  is_quadratic : bool;
  is_affine : bool
}.

Record ConstraintObj : Type := {
  isinstance_EqConstraint : bool        (* isinstance(c, eqc.EqConstraint) *)
}.

Record VariableObj : Type := {
  type_ : var_type;                     (* type(v) *)
  domain : list ConstraintObj           (* v.domain *)
}.

Record Problem : Type := {
  is_dcp : bool;
  objective : Objective Expression;
  constraints : list ConstraintObj;
  variables : list VariableObj
}.

Definition allowedVariables : list var_type :=
  [var_Variable; var_SymmetricUpperTri].

Definition var_type_eqb (a b : var_type) : bool :=
  match a, b with
  | var_Variable, var_Variable => true
  | var_SymmetricUpperTri, var_SymmetricUpperTri => true
  | var_other c, var_other d => String.eqb c d
  | _, _ => false
  end.

(** [t in allowedVariables] *)
Definition type_in (t : var_type) (ts : list var_type) : bool :=
  existsb (var_type_eqb t) ts.

(** [not l] for a list [l]: true exactly on the empty list. *)
Definition py_not_list {A} (l : list A) : bool :=
  match l with [] => true | _ :: _ => false end.

Definition suitable (prob : Problem) : bool :=
  is_dcp prob && is_quadratic (args0 (objective prob))
  && negb (is_affine (args0 (objective prob)))
  && forallb isinstance_EqConstraint (constraints prob)
  && forallb (fun v => type_in (type_ v) allowedVariables) (variables prob)
  && forallb (fun v => py_not_list (domain v)) (variables prob).

(** A DCP problem with a quadratic objective, one equality constraint and
    one variable of type [t] without domain. *)
Definition sample_problem (t : var_type) : Problem :=
  {| is_dcp := true;
     objective := {| args0 := {| is_quadratic := true; is_affine := false |} |};
     constraints := [{| isinstance_EqConstraint := true |}];
     variables := [{| type_ := t; domain := [] |}] |}.

(** ** Exact rational instances *)

#[export] Instance Qc_Scalar : Scalar Qc := {|
  R0 := 0%Qc;
  R2 := Q2Qc 2;
  Radd := Qcplus;
  Rmul := Qcmult;
  Rdiv := Qcdiv;
  Ropp := Qcopp
|}.

Definition Qc_is_zero (a : Qc) : bool := (Qnum (this a) =? 0)%Z.

(** Coefficient extraction for an expression that is given by its
    coefficients. *)
Inductive coeff_expr : Type :=
  | QuadForm (M : matrix Qc)
  | Affine (A b : matrix Qc).

Definition coeff_quad (e : coeff_expr) (id_map : gmap Z nat) (N : nat)
  : matrix Qc :=
  match e with QuadForm M => M | Affine _ _ => [] end.

Definition coeff_affine (e : coeff_expr) (id_map : gmap Z nat) (N : nat)
  : matrix Qc * matrix Qc :=
  match e with Affine A b => (A, b) | QuadForm _ => ([], []) end.

(** A direct solver in exact arithmetic: Gauss-Jordan elimination on the
    rows of [A | b].  For column [j] it takes the first remaining row with a
    nonzero entry there, scales it and eliminates the column from all other
    rows.  On a column without pivot (a singular matrix) it raises
    ZeroDivisionError: it is a solver of the kind the handler of [solve]
    provides for, and differs there from scipy's spsolve, which returns nan
    (see [nan_spsolve]). *)
Fixpoint pick_pivot (j : nat) (rows : list (list Qc))
  : option (list Qc * list (list Qc)) :=
  match rows with
  | [] => None
  | row :: rest =>
      if Qc_is_zero (nth j row 0%Qc) then
        match pick_pivot j rest with
        | Some (p, others) => Some (p, row :: others)
        | None => None
        end
      else Some (row, rest)
  end.

Definition eliminate (j : nat) (p row : list Qc) : list Qc :=
  zip_with (fun a b => (a - nth j row 0%Qc * b)%Qc) row p.

Fixpoint gauss_jordan (fuel j : nat) (done todo : list (list Qc))
  : res (list (list Qc)) :=
  match fuel with
  | 0 => Ok done
  | S fuel' =>
      match pick_pivot j todo with
      | None => Raise ZeroDivisionError
      | Some (p, rest) =>
          let p' := map (fun a => (a / nth j p 0%Qc)%Qc) p in
          gauss_jordan fuel' (S j)
            (map (eliminate j p') done ++ [p']) (map (eliminate j p') rest)
      end
  end.

Definition gauss_spsolve (A b : matrix Qc) : res (list Qc) :=
  match gauss_jordan (length A) 0 [] (zip_with app A b) with
  | Ok rows => Ok (map (fun row => List.last row 0%Qc) rows)
  | Raise e => Raise e
  end.

Definition coeff_utilities : Utilities Qc coeff_expr :=
  {| quad_coeffs := coeff_quad; affine_coeffs := coeff_affine |}.

Definition gauss_SLA : SparseLinalg Qc := {| spsolve := gauss_spsolve |}.

(** ** Scalars with nan, and a solver that returns nan *)

(** A rational or nan ([None]).  Every operation with a nan operand gives
    nan, [0 * nan] included; a division by zero gives nan as well ([solve]
    divides by 2 only). *)
Abbreviation qnan := (option Qc).

Definition qnan_lift2 (f : Qc -> Qc -> Qc) (a b : qnan) : qnan :=
  match a, b with
  | Some x, Some y => Some (f x y)
  | _, _ => None
  end.

Definition qnan_div (a b : qnan) : qnan :=
  match a, b with
  | Some x, Some y => if Qc_is_zero y then None else Some (x / y)%Qc
  | _, _ => None
  end.

Definition qnan_opp (a : qnan) : qnan :=
  match a with Some x => Some (- x)%Qc | None => None end.

#[export] Instance qnan_Scalar : Scalar qnan := {|
  R0 := Some 0%Qc;
  R2 := Some (Q2Qc 2);
  Radd := qnan_lift2 Qcplus;
  Rmul := qnan_lift2 Qcmult;
  Rdiv := qnan_div;
  Ropp := qnan_opp
|}.

(** The entries of a vector or matrix when none of them is nan. *)
Fixpoint known (l : list qnan) : option (list Qc) :=
  match l with
  | [] => Some []
  | Some x :: l' =>
      match known l' with Some k => Some (x :: k) | None => None end
  | None :: _ => None
  end.

Fixpoint known_rows (A : matrix qnan) : option (matrix Qc) :=
  match A with
  | [] => Some []
  | row :: A' =>
      match known row, known_rows A' with
      | Some r, Some K => Some (r :: K)
      | _, _ => None
      end
  end.

(** [SLA.spsolve] as scipy has it: on a singular matrix the factorisation
    does not raise; it warns (MatrixRankWarning) and the vector it returns
    holds nan in every entry.  On a matrix of full rank it returns the
    solution. *)
Definition nan_spsolve (A b : matrix qnan) : res (list qnan) :=
  match known_rows A, known_rows b with
  | Some A', Some b' =>
      match gauss_spsolve A' b' with
      | Ok x => Ok (map Some x)
      | Raise _ => Ok (repeat None (length A))
      end
  | _, _ => Ok (repeat None (length A))
  end.

Definition nan_SLA : SparseLinalg qnan := {| spsolve := nan_spsolve |}.

(** The coefficient extraction of [coeff_utilities] with entries in
    [qnan]. *)
Definition nan_utilities : Utilities qnan coeff_expr :=
  {| quad_coeffs := fun e id_map N => map (map Some) (coeff_quad e id_map N);
     affine_coeffs := fun e id_map N =>
       (map (map Some) (fst (coeff_affine e id_map N)),
        map (map Some) (snd (coeff_affine e id_map N))) |}.

(** ** Sample inputs: one scalar variable, [N = 1] *)

Definition x7 : Var := {| var.id := 7%Z; var.size := (1, 1) |}.
Definition x8 : Var := {| var.id := 8%Z; var.size := (2, 3) |}.
Definition x9 : Var := {| var.id := 9%Z; var.size := (4, 1) |}.

Definition sym_data_1 : SymData (Constraint coeff_expr) :=
  {| constr_map_EQ := [];
     var_offsets := {[ 7%Z := 0 ]};
     var_sizes := {[ 7%Z := (1, 1) ]};
     x_length := 1 |}.

(** [2 x^2 + (1 + 3) x + 5], extracted with an asymmetric last row and
    column: [P = [[2]]], [q = [[2]]], [r = 5]. *)
Definition objective_1 : Objective coeff_expr :=
  {| args0 := QuadForm [[Q2Qc 2; Q2Qc 1]; [Q2Qc 3; Q2Qc 5]] |}.

(** The zero objective: [P = 0], [q = 0], [r = 0]. *)
Definition objective_0 : Objective coeff_expr :=
  {| args0 := QuadForm [[Q2Qc 0; Q2Qc 0]; [Q2Qc 0; Q2Qc 0]] |}.

(** The constraint [0 x + 0 = 0]: one row of zeros. *)
Definition zero_row_constraint : Constraint coeff_expr :=
  {| _expr := Affine [[Q2Qc 0]] [[Q2Qc 0]] |}.

(** The constraint [x + 1 = 0]. *)
Definition constraint_1 : Constraint coeff_expr :=
  {| _expr := Affine [[Q2Qc 1]] [[Q2Qc 1]] |}.

(** The solution of [[2, 1], [1, 0]] [x; nu] = [-2; -1], the system of
    [objective_1] under [constraint_1]. *)
Definition solution_1 : list Qc := [Q2Qc (-1); Q2Qc 0].

(** The solution of [[2]] [x] = [-2], the system of [objective_1] without
    constraints. *)
Definition solution_0 : list Qc := [Q2Qc (-1)].

(** ** LS.split_constr *)

(** The outcome of indexing a dictionary: the value, or KeyError with the
    key that is missing. *)
Inductive keyed (A : Type) : Type :=
  | Found (a : A)
  | KeyError (key : string).
Arguments Found {A} a.
Arguments KeyError {A} key.

Section SplitConstr.
Context {constr : Type}.
(** The keys [s.EQ] and [s.LEQ] of cvxpy.settings, which is not among the
    sources. *)
Variables EQ LEQ : string.

(** [d[key]] *)
Definition getitem (d : gmap string (list constr)) (key : string)
  : keyed (list constr) :=
  match d !! key with
  | Some v => Found v
  | None => KeyError key
  end.

(** The tuple is evaluated from the left: [constr_map[s.EQ]] first. *)
Definition split_constr (constr_map : gmap string (list constr))
  : keyed (list constr * list constr * list constr) :=
  match getitem constr_map EQ with
  | KeyError key => KeyError key
  | Found eq_constr =>
      match getitem constr_map LEQ with
      | KeyError key => KeyError key
      | Found ineq_constr => Found (eq_constr, ineq_constr, [])
      end
  end.

(** [self.constr_map = {s.EQ: constraints}] of FakeSymData, as the
    dictionary it is. *)
Definition constr_map (sym_data : SymData constr)
  : gmap string (list constr) :=
  {[ EQ := constr_map_EQ sym_data ]}.
End SplitConstr.

(** ** LS.get_sym_data *)

Section GetSymData.
Context {expr : Type}.
(** [objective.variables()] and [c.variables()]. *)
Variable objective_variables : Objective expr -> list Var.
Variable constraint_variables : Constraint expr -> list Var.
(** [list(set(l))]: the distinct elements of [l] in the iteration order of
    the set.  A variable object is identified with its record. *)
Variable list_set : list Var -> list Var.

(** [vars_] after the loop over the constraints. *)
Definition collect_variables (objective : Objective expr)
    (constraints : list (Constraint expr)) : list Var :=
  fold_left (fun vars_ c => vars_ ++ constraint_variables c)
    constraints (objective_variables objective).

(** FakeSymData.__init__; [cached_data] is not used. *)
Definition get_sym_data (objective : Objective expr)
    (constraints : list (Constraint expr)) : SymData (Constraint expr) :=
  let vars_ := collect_variables objective constraints in
  let vars_ := list_set vars_ in
  let '(offsets, sizes, total) := get_var_offsets vars_ in
  {| constr_map_EQ := constraints;
     var_offsets := offsets;
     var_sizes := sizes;
     x_length := total |}.
End GetSymData.

(** ** The intermediate values of [solve] *)

Section SolveValues.
Context {R : Type} `{Scalar R} {expr : Type}.
Variable u : Utilities R expr.
Implicit Types (objective : Objective expr)
  (constraints : list (Constraint expr))
  (sym_data : SymData (Constraint expr)).

(** [M], [P], [q] and [r] of a call of [solve]. *)
Definition solve_M objective sym_data : matrix R :=
  quad_coeffs u (args0 objective) (var_offsets sym_data) (x_length sym_data).
Definition solve_P objective sym_data : matrix R :=
  quad_P (solve_M objective sym_data) (x_length sym_data).
Definition solve_q objective sym_data : matrix R :=
  quad_q (solve_M objective sym_data) (x_length sym_data).
Definition solve_r objective sym_data : R :=
  quad_r (solve_M objective sym_data) (x_length sym_data).

(** [Cs], [As] and [bs] of a call of [solve] with constraints. *)
Definition solve_Cs constraints sym_data : list (matrix R * matrix R) :=
  map (fun c => affine_coeffs u (_expr c) (var_offsets sym_data)
                  (x_length sym_data)) constraints.
Definition solve_As constraints sym_data : matrix R :=
  vstack (map fst (solve_Cs constraints sym_data)).
Definition solve_bs constraints sym_data : matrix R :=
  vstack (map snd (solve_Cs constraints sym_data)).

(** The shapes of the collaborators' interface for a call with at least one
    constraint: [M] is (N+1) by (N+1), and every constraint has an [m_i] by
    [N] matrix and an [m_i] by 1 vector with [m_i > 0]. *)
Definition constrained_shapes objective constraints sym_data : bool :=
  (0 <? length constraints)
  && has_shape (S (x_length sym_data)) (S (x_length sym_data))
       (solve_M objective sym_data)
  && forallb (coeffs_ok (x_length sym_data)) (solve_Cs constraints sym_data).
End SolveValues.

(** ** Further sample inputs *)

#[export] Instance Var_eq_dec : EqDecision Var.
Proof. solve_decision. Defined.

(** A second variable object with the identifier of [x7]. *)
Definition x7b : Var := {| var.id := 7%Z; var.size := (2, 2) |}.

(** A solver that rejects every system with the exception [e]. *)
Definition raising_SLA (e : exn) : SparseLinalg Qc :=
  {| spsolve := fun _ _ => Raise e |}.

(** The variables of the sample objective and constraints: [x8] is shared. *)
Definition sample_objective_variables (o : Objective coeff_expr)
  : list Var := [x7; x8].
Definition sample_constraint_variables (c : Constraint coeff_expr)
  : list Var := [x8; x9].

(** The result of [solve] for [objective_1] under [constraint_1], when the
    solver returns [solution_1]. *)
Definition result_1 : gmap string (pyval Qc) :=
  format_results (Some (firstn 1 solution_1)) (Some (skipn 1 solution_1))
    (Some (objective_value
             (solve_P coeff_utilities objective_1 sym_data_1)
             (solve_q coeff_utilities objective_1 sym_data_1)
             (solve_r coeff_utilities objective_1 sym_data_1)
             (firstn 1 solution_1))).

(** [3 x^2 + 2 x + 1] with symmetric coefficients. *)
Definition objective_sym : Objective coeff_expr :=
  {| args0 := QuadForm [[Q2Qc 3; Q2Qc 1]; [Q2Qc 1; Q2Qc 1]] |}.

(** The inconsistent constraint [0 x + 1 = 0]. *)
Definition inconsistent_constraint : Constraint coeff_expr :=
  {| _expr := Affine [[Q2Qc 0]] [[Q2Qc 1]] |}.

(** * Properties *)

(** Equality of computed rationals: two canonical fractions are equal when
    their values are, whatever the proofs of canonicity. *)
Ltac qc_compute_eq :=
  vm_compute;
  repeat first
    [ reflexivity
    | apply Qc_is_canon; reflexivity
    | apply f_equal2
    | apply f_equal ].

(** ** The exact solver on samples *)

(** A system that needs a row exchange, and a singular one. *)
Example gauss_spsolve_exchange :
  gauss_spsolve [[Q2Qc 0; Q2Qc 1]; [Q2Qc 1; Q2Qc 0]] [[Q2Qc 1]; [Q2Qc 2]]
  = Ok [Q2Qc 2; Q2Qc 1].
Proof. qc_compute_eq. Qed.

Example gauss_spsolve_singular :
  gauss_spsolve [[Q2Qc 1; Q2Qc 2]; [Q2Qc 2; Q2Qc 4]] [[Q2Qc 1]; [Q2Qc 2]]
  = Raise ZeroDivisionError.
Proof. vm_compute. reflexivity. Qed.

(** ** format_results *)

Section FormatResults.
Context {R : Type}.
Implicit Types (x nu : option (list R)) (p_star : option R).

Lemma format_results_None nu p_star :
  format_results None nu p_star = {[ s.STATUS := PyStr s.INFEASIBLE ]}.
Proof. reflexivity. Qed.

Lemma format_results_Some a nu p_star :
  format_results (Some a) nu p_star =
    <[s.EQ_DUAL := py_of_array nu]>
      (<[s.PRIMAL := PyArray a]>
         (<[s.STATUS := PyStr s.OPTIMAL]>
            {[ s.VALUE := py_of_float p_star ]})).
Proof. reflexivity. Qed.

Lemma format_results_status x nu p_star :
  format_results x nu p_star !! s.STATUS =
    Some (PyStr (match x with Some _ => s.OPTIMAL | None => s.INFEASIBLE end)).
Proof.
  destruct x as [a|].
  - rewrite format_results_Some.
    rewrite lookup_insert_ne by discriminate.
    rewrite lookup_insert_ne by discriminate.
    apply lookup_insert_eq.
  - rewrite format_results_None. apply lookup_singleton_eq.
Qed.

Lemma format_results_infeasible_inv x nu p_star :
  format_results x nu p_star !! s.STATUS = Some (PyStr s.INFEASIBLE) ->
  x = None.
Proof.
  rewrite format_results_status. destruct x; [discriminate | reflexivity].
Qed.

Lemma format_results_optimal a nu p_star :
  format_results (Some a) nu p_star !! s.VALUE = Some (py_of_float p_star)
  /\ format_results (Some a) nu p_star !! s.PRIMAL = Some (PyArray a)
  /\ format_results (Some a) nu p_star !! s.EQ_DUAL = Some (py_of_array nu)
  /\ dom (format_results (Some a) nu p_star)
     = {[ s.STATUS; s.VALUE; s.PRIMAL; s.EQ_DUAL ]}.
Proof.
  rewrite format_results_Some. split; [| split; [| split]].
  - rewrite !lookup_insert_ne by discriminate. apply lookup_singleton_eq.
  - rewrite lookup_insert_ne by discriminate. apply lookup_insert_eq.
  - apply lookup_insert_eq.
  - rewrite !dom_insert_L, dom_singleton_L. set_solver.
Qed.

(** C8: the result mapping of [format_results].  Without a primal the status
    is "infeasible"; with a primal the status is "optimal" and the four keys
    hold the objective value, the primal and the dual that were given; the
    status is never anything but "optimal" or "infeasible". *)
Theorem format_results_spec x nu p_star :
  match x with
  | None =>
      format_results x nu p_star !! s.STATUS = Some (PyStr s.INFEASIBLE)
  | Some a =>
      format_results x nu p_star !! s.STATUS = Some (PyStr s.OPTIMAL)
      /\ format_results x nu p_star !! s.VALUE = Some (py_of_float p_star)
      /\ format_results x nu p_star !! s.PRIMAL = Some (PyArray a)
      /\ format_results x nu p_star !! s.EQ_DUAL = Some (py_of_array nu)
      /\ dom (format_results x nu p_star)
         = {[ s.STATUS; s.VALUE; s.PRIMAL; s.EQ_DUAL ]}
  end
  /\ (exists st, format_results x nu p_star !! s.STATUS = Some (PyStr st)
                 /\ (st = s.OPTIMAL \/ st = s.INFEASIBLE)).
Proof.
  split.
  - destruct x as [a|]; [| apply format_results_status].
    split; [apply (format_results_status (Some a)) |].
    apply format_results_optimal.
  - eexists. split; [apply format_results_status |].
    destruct x; auto.
Qed.

Lemma format_results_infeasible_dom x nu p_star :
  format_results x nu p_star !! s.STATUS = Some (PyStr s.INFEASIBLE) ->
  format_results x nu p_star = {[ s.STATUS := PyStr s.INFEASIBLE ]}.
Proof.
  intros Hst. apply format_results_infeasible_inv in Hst. subst x.
  apply format_results_None.
Qed.
End FormatResults.

(** ** solve: the outcome of the solver call *)

Section SolveOutcome.
Context {R : Type} `{Scalar R} {expr : Type}.
Variable u : Utilities R expr.
Variable SLA : SparseLinalg R.
Implicit Types (objective : Objective expr)
  (constraints : list (Constraint expr))
  (sym_data : SymData (Constraint expr)).

(** [solve] is [format_results] applied to what the [try] statement leaves
    in [x], [nu] and [p_star]. *)
Lemma solve_unfold objective constraints sym_data :
  solve u SLA objective constraints sym_data =
    match solve_triple u SLA objective constraints sym_data with
    | Ok (x, nu, p_star) => Ok (format_results x nu p_star)
    | Raise e => Raise e
    end.
Proof. reflexivity. Qed.

Lemma solve_triple_unfold objective constraints sym_data :
  solve_triple u SLA objective constraints sym_data =
    let N := x_length sym_data in
    let M := quad_coeffs u (args0 objective) (var_offsets sym_data) N in
    solve_outcome N (quad_P M N) (quad_q M N) (quad_r M N)
      (spsolve SLA (fst (solve_system u objective constraints sym_data))
                 (snd (solve_system u objective constraints sym_data))).
Proof.
  unfold solve_triple.
  destruct (solve_system u objective constraints sym_data); reflexivity.
Qed.

(** Every result of [solve] is a result of [format_results]. *)
Lemma solve_Ok_inv objective constraints sym_data d :
  solve u SLA objective constraints sym_data = Ok d ->
  exists x nu p_star,
    solve_triple u SLA objective constraints sym_data = Ok (x, nu, p_star)
    /\ d = format_results x nu p_star.
Proof.
  rewrite solve_unfold.
  destruct (solve_triple u SLA objective constraints sym_data)
    as [[[x nu] p_star]|e]; [| discriminate].
  intros [= <-]. eauto.
Qed.

(** The handler: when the solver call on the assembled system raises an
    ArithmeticError (or one of its subclasses), [solve] returns normally;
    primal, dual and objective value are None and the status of the result
    is "infeasible". *)
Lemma solve_numeric_failure_infeasible objective constraints sym_data e :
  spsolve SLA (fst (solve_system u objective constraints sym_data))
            (snd (solve_system u objective constraints sym_data)) = Raise e ->
  isinstance_ArithmeticError e = true ->
  solve_triple u SLA objective constraints sym_data = Ok (None, None, None)
  /\ exists d, solve u SLA objective constraints sym_data = Ok d
               /\ d !! s.STATUS = Some (PyStr s.INFEASIBLE).
Proof.
  intros Hraise Harith.
  assert (Ht : solve_triple u SLA objective constraints sym_data
               = Ok (None, None, None)).
  { rewrite solve_triple_unfold. cbn zeta. rewrite Hraise. cbn.
    rewrite Harith. reflexivity. }
  split; [exact Ht |].
  exists (format_results None None None). split.
  - rewrite solve_unfold, Ht. reflexivity.
  - apply format_results_status.
Qed.

(** The handler catches nothing else: an exception of another class leaves
    [solve] as it was raised. *)
Lemma solve_other_exception_propagates objective constraints sym_data e :
  spsolve SLA (fst (solve_system u objective constraints sym_data))
            (snd (solve_system u objective constraints sym_data)) = Raise e ->
  isinstance_ArithmeticError e = false ->
  solve u SLA objective constraints sym_data = Raise e.
Proof.
  intros Hraise Harith.
  rewrite solve_unfold, solve_triple_unfold. cbn zeta. rewrite Hraise. cbn.
  rewrite Harith. reflexivity.
Qed.

(** C10: an infeasible result of [solve] is the mapping with the status key
    alone; the keys of the objective value, the primal and the dual are
    absent. *)
Theorem solve_infeasible_only_status objective constraints sym_data d :
  solve u SLA objective constraints sym_data = Ok d ->
  d !! s.STATUS = Some (PyStr s.INFEASIBLE) ->
  d = {[ s.STATUS := PyStr s.INFEASIBLE ]}
  /\ dom d = {[ s.STATUS ]}
  /\ size d = 1
  /\ d !! s.VALUE = None /\ d !! s.PRIMAL = None /\ d !! s.EQ_DUAL = None.
Proof.
  intros Hsolve Hst.
  destruct (solve_Ok_inv _ _ _ _ Hsolve) as (x & nu & p_star & _ & ->).
  apply format_results_infeasible_dom in Hst. rewrite Hst.
  split; [reflexivity |].
  split; [apply dom_singleton_L |].
  split; [apply map_size_singleton |].
  split; [| split]; apply lookup_singleton_ne; discriminate.
Qed.

(** C4: with an empty constraint list no block matrix is built; the solver
    is called on [P] and [-q], and [solve] formats the outcome of that
    call. *)
Theorem solve_no_constraints_system objective sym_data :
  let N := x_length sym_data in
  let M := quad_coeffs u (args0 objective) (var_offsets sym_data) N in
  let P := quad_P M N in
  let q := quad_q M N in
  let r := quad_r M N in
  solve_system u objective [] sym_data = (P, mneg q)
  /\ solve_triple u SLA objective [] sym_data
     = solve_outcome N P q r (spsolve SLA P (mneg q))
  /\ solve u SLA objective [] sym_data
     = match solve_outcome N P q r (spsolve SLA P (mneg q)) with
       | Ok (x, nu, p_star) => Ok (format_results x nu p_star)
       | Raise e => Raise e
       end.
Proof.
  intros N M P q r.
  split; [reflexivity |]. split; reflexivity.
Qed.
End SolveOutcome.

Lemma solve_infeasible_only_status_witness :
  let d : gmap string (pyval Qc) := {[ s.STATUS := PyStr s.INFEASIBLE ]} in
  d = {[ s.STATUS := PyStr s.INFEASIBLE ]}
  /\ dom d = {[ s.STATUS ]}
  /\ size d = 1
  /\ d !! s.VALUE = None /\ d !! s.PRIMAL = None /\ d !! s.EQ_DUAL = None.
Proof.
  intros d.
  apply (solve_infeasible_only_status coeff_utilities gauss_SLA objective_1
           [zero_row_constraint] sym_data_1 d).
  - vm_compute. reflexivity.
  - vm_compute. reflexivity.
Defined.

(** ** suitable *)

Lemma type_in_allowedVariables t :
  type_in t allowedVariables = true <->
  t = var_Variable \/ t = var_SymmetricUpperTri.
Proof.
  split.
  - destruct t; cbn; intros Hin; auto; discriminate.
  - intros [-> | ->]; reflexivity.
Qed.

Lemma py_not_list_true {A} (l : list A) : py_not_list l = true <-> l = [].
Proof. destruct l; cbn; split; congruence. Qed.

(** C7: [suitable] holds exactly when the problem is DCP, the objective is
    quadratic and not affine, every constraint is an equality constraint,
    the type of every variable is one of the two allowed types and no
    variable has a domain.  The check is a function of the problem alone. *)
Theorem suitable_iff (prob : Problem) :
  suitable prob = true <->
  is_dcp prob = true
  /\ is_quadratic (args0 (objective prob)) = true
  /\ is_affine (args0 (objective prob)) = false
  /\ Forall (fun c => isinstance_EqConstraint c = true) (constraints prob)
  /\ Forall (fun v => type_ v = var_Variable
                      \/ type_ v = var_SymmetricUpperTri) (variables prob)
  /\ Forall (fun v => domain v = []) (variables prob).
Proof.
  unfold suitable.
  rewrite !andb_true_iff, negb_true_iff, !forallb_forall, !List.Forall_forall.
  split.
  - intros [[[[[Hdcp Hq] Ha] Hc] Hv] Hd].
    repeat split; auto.
    + intros v Hin. apply type_in_allowedVariables, Hv, Hin.
    + intros v Hin. apply py_not_list_true, Hd, Hin.
  - intros (Hdcp & Hq & Ha & Hc & Hv & Hd).
    repeat split; auto.
    + intros v Hin. apply type_in_allowedVariables, Hv, Hin.
    + intros v Hin. apply py_not_list_true, Hd, Hin.
Qed.

(** The type test is exact: a variable of another class, such as a subclass
    of the plain variable, is refused. *)
Example suitable_plain_variable :
  suitable (sample_problem var_Variable) = true.
Proof. reflexivity. Qed.

Example suitable_other_variable :
  suitable (sample_problem (var_other "Bool")) = false.
Proof. reflexivity. Qed.

(** ** get_var_offsets *)

Section VarOffsets.
Implicit Types (variables : list Var) (x y : Var).

(** One more turn of the loop. *)
Lemma get_var_offsets_snoc variables x :
  get_var_offsets (variables ++ [x]) =
    (<[var.id x := (get_var_offsets variables).2]>
       (get_var_offsets variables).1.1,
     <[var.id x := var.size x]> (get_var_offsets variables).1.2,
     (get_var_offsets variables).2 + flat_size x).
Proof.
  unfold get_var_offsets. rewrite fold_left_app. cbn.
  destruct (fold_left _ variables _) as [[offs sizes] n]. reflexivity.
Qed.

Lemma get_var_offsets_length variables :
  (get_var_offsets variables).2 = sum_list_with flat_size variables.
Proof.
  induction variables as [|x variables IH] using rev_ind; [reflexivity |].
  rewrite get_var_offsets_snoc, sum_list_with_app. cbn. lia.
Qed.

(** Only the identifiers of the variables are keys. *)
Lemma get_var_offsets_fresh variables k :
  k ∉ map var.id variables ->
  (get_var_offsets variables).1.1 !! k = None
  /\ (get_var_offsets variables).1.2 !! k = None.
Proof.
  induction variables as [|x variables IH] using rev_ind; intros Hk.
  - split; apply lookup_empty.
  - rewrite map_app in Hk. cbn in Hk.
    apply not_elem_of_app in Hk as [Hk Hx].
    apply not_elem_of_cons in Hx as [Hx _].
    rewrite get_var_offsets_snoc. cbn.
    rewrite !lookup_insert_ne by congruence. auto.
Qed.

(** With distinct identifiers, the offset of the [i]-th variable is the total
    size of the variables before it. *)
Lemma get_var_offsets_lookup variables i x :
  NoDup (map var.id variables) ->
  variables !! i = Some x ->
  (get_var_offsets variables).1.1 !! var.id x
    = Some (prefix_size variables i)
  /\ (get_var_offsets variables).1.2 !! var.id x = Some (var.size x).
Proof.
  revert i x.
  induction variables as [|z variables IH] using rev_ind; intros i x Hnd Hi.
  - discriminate.
  - rewrite map_app in Hnd. cbn in Hnd.
    apply NoDup_app in Hnd as (Hnd & Hz & _).
    rewrite get_var_offsets_snoc. cbn.
    destruct (decide (i < length variables)) as [Hlt | Hge].
    + rewrite lookup_app_l in Hi by exact Hlt.
      assert (Hne : var.id z <> var.id x).
      { intros Heq. apply (Hz (var.id x)).
        - apply list_elem_of_fmap. exists x. split; [reflexivity |].
          apply list_elem_of_lookup. eauto.
        - rewrite <- Heq. apply list_elem_of_singleton. reflexivity. }
      rewrite !lookup_insert_ne by exact Hne.
      unfold prefix_size. rewrite take_app_le by lia.
      apply IH; assumption.
    + assert (Hlen : i = length variables).
      { apply lookup_lt_Some in Hi. rewrite length_app in Hi. cbn in Hi. lia. }
      subst i. rewrite list_lookup_middle in Hi by reflexivity.
      injection Hi as <-.
      rewrite !lookup_insert_eq. split; [| reflexivity].
      unfold prefix_size. rewrite take_app_le, firstn_all by lia.
      rewrite get_var_offsets_length. reflexivity.
Qed.

(** Prefix sums grow with the index, by the size of each variable. *)
Lemma prefix_size_S variables i x :
  variables !! i = Some x ->
  prefix_size variables (S i) = prefix_size variables i + flat_size x.
Proof.
  intros Hi. unfold prefix_size.
  rewrite (take_S_r _ _ _ Hi), sum_list_with_app. cbn. lia.
Qed.

Lemma prefix_size_mono variables i j x :
  variables !! i = Some x -> i < j ->
  prefix_size variables i + flat_size x <= prefix_size variables j.
Proof.
  intros Hi Hij. rewrite <- (prefix_size_S _ _ _ Hi).
  induction Hij as [| j Hij IH]; [lia |].
  destruct (variables !! j) as [y|] eqn:Hj.
  - rewrite (prefix_size_S _ _ _ Hj). lia.
  - unfold prefix_size in *. apply lookup_ge_None in Hj.
    rewrite (take_ge variables (S j)) by lia.
    rewrite (take_ge variables j) in IH by lia. exact IH.
Qed.

Lemma prefix_size_all variables :
  prefix_size variables (length variables)
    = sum_list_with flat_size variables.
Proof. unfold prefix_size. rewrite firstn_all. reflexivity. Qed.

(** Every position below the total belongs to the block of some variable. *)
Lemma prefix_size_cover variables k :
  k < sum_list_with flat_size variables ->
  exists i x, variables !! i = Some x
    /\ prefix_size variables i <= k < prefix_size variables i + flat_size x.
Proof.
  induction variables as [|z variables IH] using rev_ind; intros Hk.
  - cbn in Hk. lia.
  - rewrite sum_list_with_app in Hk. cbn in Hk.
    destruct (decide (k < sum_list_with flat_size variables)) as [Hlt | Hge].
    + destruct (IH Hlt) as (i & x & Hi & Hr).
      exists i, x. split.
      * rewrite lookup_app_l; [exact Hi |]. eapply lookup_lt_Some, Hi.
      * apply lookup_lt_Some in Hi. unfold prefix_size in *.
        rewrite take_app_le by lia. exact Hr.
    + exists (length variables), z. split.
      * apply list_lookup_middle. reflexivity.
      * unfold prefix_size. rewrite take_app_le, firstn_all by lia. lia.
Qed.
End VarOffsets.

(** C6: for variables with distinct identifiers, [get_var_offsets] gives
    each variable an offset and records its size; its range starts where the
    ranges of the variables before it end and has the length of its
    flattened size; every position of [[0, N)] lies in the range of exactly
    one variable, no range leaves [[0, N)], and [N] is the sum of the
    flattened sizes. *)
Theorem get_var_offsets_partition (variables : list Var) :
  NoDup (map var.id variables) ->
  let '(offsets, sizes, N) := get_var_offsets variables in
  N = sum_list_with flat_size variables
  /\ (forall i x, variables !! i = Some x ->
        offsets !! var.id x = Some (prefix_size variables i)
        /\ sizes !! var.id x = Some (var.size x))
  /\ (forall x k, x ∈ variables -> in_range offsets x k -> k < N)
  /\ (forall k, k < N ->
        exists i x, variables !! i = Some x /\ in_range offsets x k
          /\ forall j y, variables !! j = Some y -> in_range offsets y k ->
                         j = i).
Proof.
  intros Hnd.
  pose proof (get_var_offsets_length variables) as HN.
  pose proof (fun i x => get_var_offsets_lookup variables i x Hnd) as Hlook.
  destruct (get_var_offsets variables) as [[offsets sizes] N].
  cbn in HN, Hlook. subst N.
  assert (Hin : forall i x k, variables !! i = Some x ->
            in_range offsets x k <->
            prefix_size variables i <= k
              < prefix_size variables i + flat_size x).
  { intros i x k Hi. destruct (Hlook i x Hi) as [Ho _]. unfold in_range.
    split.
    - intros (o & Ho' & Hr). rewrite Ho in Ho'. injection Ho' as <-. exact Hr.
    - intros Hr. eauto. }
  split; [reflexivity |]. split; [exact Hlook |]. split.
  - intros x k Hx Hr.
    apply list_elem_of_lookup in Hx as [i Hi].
    apply (Hin i x k Hi) in Hr.
    pose proof (prefix_size_mono variables i (length variables) x Hi
                  (lookup_lt_Some _ _ _ Hi)) as Hle.
    rewrite prefix_size_all in Hle. lia.
  - intros k Hk.
    destruct (prefix_size_cover variables k Hk) as (i & x & Hi & Hr).
    exists i, x. split; [exact Hi |]. split; [apply (Hin i x k Hi), Hr |].
    intros j y Hj Hry. apply (Hin j y k Hj) in Hry.
    destruct (Nat.lt_trichotomy j i) as [Hlt | [Heq | Hgt]]; [| exact Heq |].
    + pose proof (prefix_size_mono variables j i y Hj Hlt). lia.
    + pose proof (prefix_size_mono variables i j x Hi Hgt). lia.
Qed.

Lemma get_var_offsets_partition_witness :
  let '(offsets, sizes, N) := get_var_offsets [x7; x8; x9] in
  N = sum_list_with flat_size [x7; x8; x9]
  /\ (forall i x, [x7; x8; x9] !! i = Some x ->
        offsets !! var.id x = Some (prefix_size [x7; x8; x9] i)
        /\ sizes !! var.id x = Some (var.size x))
  /\ (forall x k, x ∈ [x7; x8; x9] -> in_range offsets x k -> k < N)
  /\ (forall k, k < N ->
        exists i x, [x7; x8; x9] !! i = Some x /\ in_range offsets x k
          /\ forall j y, [x7; x8; x9] !! j = Some y -> in_range offsets y k ->
                         j = i).
Proof.
  apply (get_var_offsets_partition [x7; x8; x9]).
  apply (bool_decide_unpack _). vm_compute. reflexivity.
Defined.

(** Two variables with one identifier break the partition: the dictionary
    keeps the later offset, and position 0 of [[0, 2)] is in no range. *)
Example get_var_offsets_duplicate :
  get_var_offsets [x7; x7] = ({[ 7%Z := 1 ]}, {[ 7%Z := (1, 1) ]}, 2).
Proof. vm_compute. reflexivity. Qed.

(** The offsets of the three sample variables: 0, 1 and 7, of 11. *)
Example get_var_offsets_sample :
  get_var_offsets [x7; x8; x9]
  = ({[ 7%Z := 0; 8%Z := 1; 9%Z := 7 ]},
     {[ 7%Z := (1, 1); 8%Z := (2, 3); 9%Z := (4, 1) ]}, 11).
Proof. vm_compute. reflexivity. Qed.

(** ** Lists and matrices *)

Section ListFacts.
Context {A B C : Type}.

Lemma nth_map_seq (f : nat -> A) (n i : nat) (d : A) :
  i < n -> nth i (map f (seq 0 n)) d = f i.
Proof.
  intros Hi. rewrite (nth_indep _ d (f 0)) by (rewrite length_map, length_seq; lia).
  rewrite map_nth, seq_nth by lia. reflexivity.
Qed.

Lemma list_as_map_seq (l : list A) (n : nat) (d : A) :
  length l = n -> l = map (fun i => nth i l d) (seq 0 n).
Proof.
  intros Hlen. apply (nth_ext _ _ d d).
  - rewrite length_map, length_seq. exact Hlen.
  - intros i Hi. rewrite nth_map_seq by lia. reflexivity.
Qed.

Lemma firstn_as_map_seq (l : list A) (n : nat) (d : A) :
  n <= length l -> firstn n l = map (fun i => nth i l d) (seq 0 n).
Proof.
  intros Hle.
  rewrite (list_as_map_seq (firstn n l) n d)
    by (rewrite length_firstn; lia).
  apply map_ext_in. intros i Hi. apply in_seq in Hi.
  rewrite nth_firstn. destruct (Nat.ltb_spec i n); [reflexivity | lia].
Qed.

Lemma zip_with_map_same {D : Type} (f : A -> B -> C) (g : D -> A)
    (h : D -> B) (l : list D) :
  zip_with f (map g l) (map h l) = map (fun x => f (g x) (h x)) l.
Proof. induction l as [|x l IH]; cbn; [reflexivity | rewrite IH; reflexivity]. Qed.

Lemma fold_left_map (g : C -> A -> C) (f : B -> A) (l : list B) (a : C) :
  fold_left g (map f l) a = fold_left (fun acc x => g acc (f x)) l a.
Proof. revert a. induction l as [|x l IH]; intros a; cbn; [reflexivity | apply IH]. Qed.

Lemma fold_left_ext_in (f g : C -> B -> C) (l : list B) (a : C) :
  (forall acc x, List.In x l -> f acc x = g acc x) ->
  fold_left f l a = fold_left g l a.
Proof.
  revert a. induction l as [|x l IH]; intros a Hfg; cbn; [reflexivity |].
  rewrite Hfg by (left; reflexivity). apply IH.
  intros acc y Hy. apply Hfg. right. exact Hy.
Qed.

Lemma map_seq_shift (f : nat -> A) (start len : nat) :
  map f (seq start len) = map (fun k => f (start + k)) (seq 0 len).
Proof.
  revert f start.
  induction len as [|len IH]; intros f start; cbn; [reflexivity |].
  rewrite Nat.add_0_r. f_equal.
  rewrite (IH f (S start)), (IH (fun k => f (start + k)) 1).
  apply map_ext. intros k. f_equal. lia.
Qed.
End ListFacts.

Section MatrixFacts.
Context {R : Type} `{Scalar R}.
Implicit Types (A M P q : matrix R) (x : list R).

Lemma has_shape_spec m n A :
  has_shape m n A = true <->
  length A = m /\ forall row, List.In row A -> length row = n.
Proof.
  unfold has_shape. rewrite andb_true_iff, Nat.eqb_eq, forallb_forall.
  split; intros [Hm Hrows]; (split; [exact Hm |]); intros row Hin.
  - apply Nat.eqb_eq, Hrows, Hin.
  - apply Nat.eqb_eq, Hrows, Hin.
Qed.

Lemma has_shape_row m n A i :
  has_shape m n A = true -> i < m -> length (nth i A []) = n.
Proof.
  intros [Hm Hrows]%has_shape_spec Hi. apply Hrows, nth_In. lia.
Qed.

Lemma has_shape_ncols m n A :
  has_shape m n A = true -> 0 < m -> ncols A = n.
Proof.
  intros Hs Hm. pose proof (has_shape_row m n A 0 Hs Hm) as Hrow.
  apply has_shape_spec in Hs as [Hlen _].
  destruct A; [cbn in Hlen; lia | exact Hrow].
Qed.

Lemma tabulate_shape m n (f : nat -> nat -> R) :
  has_shape m n (tabulate m n f) = true.
Proof.
  apply has_shape_spec. unfold tabulate. split.
  - rewrite length_map, length_seq. reflexivity.
  - intros row [i [<- _]]%in_map_iff. rewrite length_map, length_seq.
    reflexivity.
Qed.

Lemma tabulate_entry m n (f : nat -> nat -> R) i j :
  i < m -> j < n -> entry (tabulate m n f) i j = f i j.
Proof.
  intros Hi Hj. unfold entry, tabulate.
  rewrite (nth_map_seq (fun i => map (fun j => f i j) (seq 0 n))) by exact Hi.
  apply (nth_map_seq (fun j => f i j)). exact Hj.
Qed.

Lemma tabulate_ext m n (f g : nat -> nat -> R) :
  (forall i j, i < m -> j < n -> f i j = g i j) ->
  tabulate m n f = tabulate m n g.
Proof.
  intros Hfg. unfold tabulate. apply map_ext_in. intros i Hi%in_seq.
  apply map_ext_in. intros j Hj%in_seq. apply Hfg; lia.
Qed.

(** A matrix of a given shape is the table of its entries. *)
Lemma shape_tabulate m n A :
  has_shape m n A = true -> A = tabulate m n (entry A).
Proof.
  intros Hs. pose proof Hs as [Hm Hrows]%has_shape_spec.
  unfold tabulate. rewrite (list_as_map_seq A m [] Hm) at 1.
  apply map_ext_in. intros i Hi%in_seq.
  apply list_as_map_seq, (has_shape_row m n); [exact Hs | lia].
Qed.

Lemma matrix_ext m n A M :
  has_shape m n A = true -> has_shape m n M = true ->
  (forall i j, i < m -> j < n -> entry A i j = entry M i j) -> A = M.
Proof.
  intros HA HM Hext.
  rewrite (shape_tabulate m n A HA), (shape_tabulate m n M HM).
  apply tabulate_ext, Hext.
Qed.
End MatrixFacts.

(** ** solve: the split of the quadratic coefficients *)

Section SplitObjective.
Context {R : Type} `{Scalar R}.
Implicit Types (M : matrix R).

Lemma slice_col_tabulate M N :
  has_shape (S N) (S N) M = true ->
  slice_col M N N = tabulate N 1 (fun i _ => entry M i N).
Proof.
  intros [Hm _]%has_shape_spec. unfold slice_col, tabulate.
  rewrite (firstn_as_map_seq M N []) by lia. rewrite map_map. reflexivity.
Qed.

Lemma transpose_slice_row_tabulate M N :
  has_shape (S N) (S N) M = true ->
  transpose (slice_row M N N) = tabulate N 1 (fun i _ => entry M N i).
Proof.
  intros Hs. pose proof (has_shape_row _ _ M N Hs (Nat.lt_succ_diag_r N)) as Hrow.
  unfold transpose, slice_row, tabulate, ncols.
  rewrite length_firstn, Hrow, Nat.min_l by lia.
  apply map_ext_in. intros i Hi%in_seq. cbn.
  rewrite nth_firstn. destruct (Nat.ltb_spec i N); [reflexivity | lia].
Qed.

Lemma quad_q_tabulate M N :
  has_shape (S N) (S N) M = true ->
  quad_q M N
  = tabulate N 1 (fun i _ => Rdiv (Radd (entry M i N) (entry M N i)) R2).
Proof.
  intros Hs. unfold quad_q.
  rewrite (slice_col_tabulate M N Hs), (transpose_slice_row_tabulate M N Hs).
  unfold madd, mdiv, tabulate. rewrite zip_with_map_same, map_map.
  reflexivity.
Qed.

Lemma quad_q_shape M N :
  has_shape (S N) (S N) M = true -> has_shape N 1 (quad_q M N) = true.
Proof. intros Hs. rewrite (quad_q_tabulate M N Hs). apply tabulate_shape. Qed.

Lemma quad_q_entry M N i :
  has_shape (S N) (S N) M = true -> i < N ->
  entry (quad_q M N) i 0 = Rdiv (Radd (entry M i N) (entry M N i)) R2.
Proof.
  intros Hs Hi. rewrite (quad_q_tabulate M N Hs).
  rewrite tabulate_entry by lia. reflexivity.
Qed.

Lemma quad_P_tabulate M N :
  has_shape (S N) (S N) M = true ->
  quad_P M N = tabulate N N (entry M).
Proof.
  intros Hs. pose proof Hs as [Hm _]%has_shape_spec.
  unfold quad_P, slice_block, tabulate.
  rewrite (firstn_as_map_seq M N []) by lia. rewrite map_map.
  apply map_ext_in. intros i Hi%in_seq.
  apply firstn_as_map_seq.
  rewrite (has_shape_row _ _ M i Hs) by lia. lia.
Qed.

Lemma quad_P_shape M N :
  has_shape (S N) (S N) M = true -> has_shape N N (quad_P M N) = true.
Proof. intros Hs. rewrite (quad_P_tabulate M N Hs). apply tabulate_shape. Qed.

Lemma quad_P_entry M N i j :
  has_shape (S N) (S N) M = true -> i < N -> j < N ->
  entry (quad_P M N) i j = entry M i j.
Proof.
  intros Hs Hi Hj. rewrite (quad_P_tabulate M N Hs).
  apply tabulate_entry; assumption.
Qed.

(** C2: for an (N+1) by (N+1) matrix [M], symmetric or not, the linear term
    [q] that [solve] computes is the column whose entries are the averages
    of the first [N] entries of the last column of [M] and of its last
    row. *)
Theorem quad_q_is_average M N :
  has_shape (S N) (S N) M = true ->
  quad_q M N = column (last_col_row_average M N).
Proof.
  intros Hs. rewrite (quad_q_tabulate M N Hs).
  unfold column, last_col_row_average, tabulate. rewrite map_map.
  reflexivity.
Qed.
End SplitObjective.

(** [M = [[2, 1], [3, 5]]]: the last column gives 1, the last row 3, and
    [q = [[2]]]. *)
Lemma quad_q_is_average_witness :
  quad_q [[Q2Qc 2; Q2Qc 1]; [Q2Qc 3; Q2Qc 5]] 1
  = column (last_col_row_average [[Q2Qc 2; Q2Qc 1]; [Q2Qc 3; Q2Qc 5]] 1).
Proof.
  apply (quad_q_is_average [[Q2Qc 2; Q2Qc 1]; [Q2Qc 3; Q2Qc 5]] 1).
  reflexivity.
Defined.

(** ** solve: the objective value *)

Section ObjectiveValue.
Context {R : Type} `{Scalar R}.
Implicit Types (P q : matrix R) (x a b : list R).

Lemma sum_upto_ext n (f g : nat -> R) :
  (forall i, i < n -> f i = g i) -> sum_upto n f = sum_upto n g.
Proof.
  intros Hfg. unfold sum_upto. apply fold_left_ext_in.
  intros acc i Hi%in_seq. rewrite Hfg by lia. reflexivity.
Qed.

Lemma dot_sum_upto n a b :
  length a = n -> length b = n ->
  dot a b = sum_upto n (fun i => Rmul (nth i a R0) (nth i b R0)).
Proof.
  intros Ha Hb. unfold dot, sum_upto.
  rewrite (list_as_map_seq a n R0 Ha) at 1.
  rewrite (list_as_map_seq b n R0 Hb) at 1.
  rewrite zip_with_map_same, fold_left_map. reflexivity.
Qed.

Lemma matvec_length P x : length (matvec P x) = length P.
Proof. apply length_map. Qed.

Lemma matvec_nth n P x i :
  has_shape n n P = true -> length x = n -> i < n ->
  nth i (matvec P x) R0
  = sum_upto n (fun j => Rmul (entry P i j) (nth j x R0)).
Proof.
  intros Hs Hx Hi. pose proof Hs as [Hn _]%has_shape_spec.
  unfold matvec. rewrite (list_as_map_seq P n [] Hn) at 1.
  rewrite map_map, nth_map_seq by exact Hi.
  apply dot_sum_upto; [| exact Hx].
  apply (has_shape_row n n); assumption.
Qed.

Lemma transpose_column_matrix n q :
  has_shape n 1 q = true -> 0 < n ->
  transpose q = [map (fun row => nth 0 row R0) q].
Proof.
  intros Hs Hn. unfold transpose.
  rewrite (has_shape_ncols n 1 q Hs Hn). reflexivity.
Qed.

(** The value computed in the [try] body is the quadratic form of the
    extracted [P], [q] and [r] at the primal. *)
Lemma objective_value_quadratic n P q r x :
  has_shape n n P = true -> has_shape n 1 q = true -> 0 < n ->
  length x = n ->
  objective_value P q r x = quadratic_value n P q r x.
Proof.
  intros HP Hq Hn Hx. unfold objective_value, quadratic_value.
  rewrite (transpose_column_matrix n q Hq Hn). cbn.
  pose proof Hq as [Hqn _]%has_shape_spec.
  f_equal. f_equal.
  - rewrite (dot_sum_upto n) by (rewrite ?matvec_length; apply has_shape_spec in HP; tauto).
    apply sum_upto_ext. intros i Hi.
    rewrite (matvec_nth n) by assumption. reflexivity.
  - f_equal.
    rewrite (dot_sum_upto n) by (rewrite ?length_map; assumption).
    apply sum_upto_ext. intros i Hi. f_equal.
    rewrite (nth_indep _ R0 (nth 0 [] R0)) by (rewrite length_map; lia).
    rewrite (map_nth (fun row => nth 0 row R0)). reflexivity.
Qed.
End ObjectiveValue.

Section SolveSuccess.
Context {R : Type} `{Scalar R} {expr : Type}.
Variable u : Utilities R expr.
Variable SLA : SparseLinalg R.
Implicit Types (objective : Objective expr)
  (constraints : list (Constraint expr))
  (sym_data : SymData (Constraint expr)).

(** C5: when the solver returns a vector [BB] (of at least [N] entries, for
    [N > 0] unknowns and an (N+1) by (N+1) coefficient matrix), the primal is
    its first [N] entries and the dual the remaining ones, and the reported
    value is [x^T P x + 2 q^T x + r] for the [P], [q], [r] taken from the
    coefficient matrix before the solve; the status is "optimal". *)
Theorem solve_success objective constraints sym_data BB :
  let N := x_length sym_data in
  let M := quad_coeffs u (args0 objective) (var_offsets sym_data) N in
  let x := firstn N BB in
  let nu := skipn N BB in
  let p_star := quadratic_value N (quad_P M N) (quad_q M N) (quad_r M N) x in
  has_shape (S N) (S N) M = true ->
  0 < N ->
  N <= length BB ->
  spsolve SLA (fst (solve_system u objective constraints sym_data))
            (snd (solve_system u objective constraints sym_data)) = Ok BB ->
  solve_triple u SLA objective constraints sym_data
    = Ok (Some x, Some nu, Some p_star)
  /\ x ++ nu = BB
  /\ length x = N
  /\ exists d, solve u SLA objective constraints sym_data = Ok d
       /\ d !! s.STATUS = Some (PyStr s.OPTIMAL)
       /\ d !! s.PRIMAL = Some (PyArray x)
       /\ d !! s.EQ_DUAL = Some (PyArray nu)
       /\ d !! s.VALUE = Some (PyFloat p_star).
Proof.
  intros N M x nu p_star HM HN HBB Hsol.
  assert (Hx : length x = N).
  { unfold x. rewrite length_firstn. lia. }
  assert (Ht : solve_triple u SLA objective constraints sym_data
               = Ok (Some x, Some nu, Some p_star)).
  { rewrite solve_triple_unfold. cbn zeta. rewrite Hsol. cbn.
    unfold primal, dual. fold N M x nu.
    rewrite (objective_value_quadratic N);
      auto using quad_P_shape, quad_q_shape. }
  split; [exact Ht |].
  split; [apply firstn_skipn |].
  split; [exact Hx |].
  exists (format_results (Some x) (Some nu) (Some p_star)).
  split; [rewrite solve_unfold, Ht; reflexivity |].
  pose proof (format_results_optimal x (Some nu) (Some p_star))
    as (Hval & Hpr & Hdu & _).
  pose proof (format_results_status (Some x) (Some nu) (Some p_star)) as Hst.
  auto.
Qed.
End SolveSuccess.

(** [objective_1] under [constraint_1]: the elimination returns [-1; 0]. *)
Lemma solve_success_witness :
  let N := 1 in
  let M := [[Q2Qc 2; Q2Qc 1]; [Q2Qc 3; Q2Qc 5]] in
  let x := firstn N solution_1 in
  let nu := skipn N solution_1 in
  let p_star := quadratic_value N (quad_P M N) (quad_q M N) (quad_r M N) x in
  solve_triple coeff_utilities gauss_SLA objective_1 [constraint_1] sym_data_1
    = Ok (Some x, Some nu, Some p_star)
  /\ x ++ nu = solution_1
  /\ length x = N
  /\ exists d,
       solve coeff_utilities gauss_SLA objective_1 [constraint_1] sym_data_1 = Ok d
       /\ d !! s.STATUS = Some (PyStr s.OPTIMAL)
       /\ d !! s.PRIMAL = Some (PyArray x)
       /\ d !! s.EQ_DUAL = Some (PyArray nu)
       /\ d !! s.VALUE = Some (PyFloat p_star).
Proof.
  apply (solve_success coeff_utilities gauss_SLA objective_1 [constraint_1]
           sym_data_1
           solution_1).
  - reflexivity.
  - cbn. lia.
  - cbn. lia.
  - qc_compute_eq.
Defined.

(** ** solve: the block system *)

Section Blocks.
Context {R : Type} `{Scalar R}.
Implicit Types (A P q : matrix R).

Lemma repeat_as_map {A : Type} (a : A) (n : nat) :
  repeat a n = map (fun _ => a) (seq 0 n).
Proof.
  apply (nth_ext _ _ a a).
  - rewrite repeat_length, length_map, length_seq. reflexivity.
  - intros i Hi. rewrite repeat_length in Hi.
    rewrite nth_repeat, (nth_map_seq (fun _ => a)) by exact Hi. reflexivity.
Qed.

Lemma zeros_tabulate m n : zeros m n = tabulate m n (fun _ _ => R0).
Proof. unfold zeros, tabulate. rewrite !repeat_as_map. reflexivity. Qed.

Lemma mneg_tabulate m n (f : nat -> nat -> R) :
  mneg (tabulate m n f) = tabulate m n (fun i j => Ropp (f i j)).
Proof.
  unfold mneg, tabulate. rewrite map_map. apply map_ext. intros i.
  apply map_map.
Qed.

Lemma transpose_tabulate m n A :
  has_shape m n A = true -> 0 < m ->
  transpose A = tabulate n m (fun i j => entry A j i).
Proof.
  intros Hs Hm. pose proof Hs as [Hlen _]%has_shape_spec.
  unfold transpose, tabulate. rewrite (has_shape_ncols m n A Hs Hm).
  apply map_ext. intros i.
  rewrite (list_as_map_seq A m [] Hlen) at 1. apply map_map.
Qed.

Lemma hstack_tabulate m n1 n2 (f g : nat -> nat -> R) :
  hstack (tabulate m n1 f) (tabulate m n2 g)
  = tabulate m (n1 + n2)
      (fun i j => if j <? n1 then f i j else g i (j - n1)).
Proof.
  unfold hstack, tabulate. rewrite zip_with_map_same.
  apply map_ext. intros i. rewrite seq_app, map_app. f_equal.
  - apply map_ext_in. intros j Hj%in_seq.
    destruct (Nat.ltb_spec j n1); [reflexivity | lia].
  - rewrite Nat.add_0_l, (map_seq_shift _ n1 n2).
    apply map_ext_in. intros k _.
    destruct (Nat.ltb_spec (n1 + k) n1); [lia |].
    replace (n1 + k - n1) with k by lia. reflexivity.
Qed.

Lemma app_tabulate m1 m2 n (f g : nat -> nat -> R) :
  tabulate m1 n f ++ tabulate m2 n g
  = tabulate (m1 + m2) n
      (fun i j => if i <? m1 then f i j else g (i - m1) j).
Proof.
  unfold tabulate. rewrite seq_app, map_app. f_equal.
  - apply map_ext_in. intros i Hi%in_seq.
    destruct (Nat.ltb_spec i m1); [reflexivity | lia].
  - rewrite Nat.add_0_l, (map_seq_shift _ m1 m2).
    apply map_ext_in. intros k _.
    destruct (Nat.ltb_spec (m1 + k) m1); [lia |].
    replace (m1 + k - m1) with k by lia. reflexivity.
Qed.

Lemma has_shape_app m1 m2 n A P :
  has_shape m1 n A = true -> has_shape m2 n P = true ->
  has_shape (m1 + m2) n (A ++ P) = true.
Proof.
  intros [H1 Hr1]%has_shape_spec [H2 Hr2]%has_shape_spec.
  apply has_shape_spec. split.
  - rewrite length_app. lia.
  - intros row [Hin | Hin]%in_app_iff; auto.
Qed.

(** The stacked coefficients of constraints of the right shapes. *)
Lemma vstack_coeffs_shape N (Cs : list (matrix R * matrix R)) :
  forallb (coeffs_ok N) Cs = true ->
  let As := vstack (map fst Cs) in
  let bs := vstack (map snd Cs) in
  has_shape (length As) N As = true
  /\ has_shape (length As) 1 bs = true
  /\ (0 < length Cs -> 0 < length As).
Proof.
  induction Cs as [| [A b] Cs IH]; intros Hok.
  - cbn. repeat split. lia.
  - change (coeffs_ok N (A, b) && forallb (coeffs_ok N) Cs = true) in Hok.
    apply andb_true_iff in Hok as [HC Hok].
    destruct (IH Hok) as (HAs & Hbs & _).
    unfold coeffs_ok in HC.
    change (fst (A, b)) with A in HC. change (snd (A, b)) with b in HC.
    apply andb_true_iff in HC as [HC Hb].
    apply andb_true_iff in HC as [Hpos HA].
    apply Nat.ltb_lt in Hpos.
    cbn. unfold vstack in *. cbn. rewrite length_app.
    split; [apply has_shape_app; assumption |].
    split; [apply has_shape_app; assumption |].
    lia.
Qed.

(** The block matrix of [solve] is the saddle-point matrix. *)
Lemma bmat_kkt N m P A :
  has_shape N N P = true -> has_shape m N A = true -> 0 < m ->
  bmat P (transpose A) A = kkt_matrix N m P A.
Proof.
  intros HP HA Hm. pose proof HA as [Hlen _]%has_shape_spec.
  assert (Htop : hstack P (transpose A)
                 = tabulate N (N + m)
                     (fun i j => if j <? N then entry P i j
                                 else entry A (j - N) i)).
  { rewrite (transpose_tabulate m N A HA Hm).
    rewrite (shape_tabulate N N P HP) at 1. apply hstack_tabulate. }
  assert (Hbot : hstack A (zeros m m)
                 = tabulate m (N + m)
                     (fun i j => if j <? N then entry A i j else R0)).
  { rewrite zeros_tabulate.
    rewrite (shape_tabulate m N A HA) at 1.
    apply (hstack_tabulate m N m (entry A) (fun _ _ => R0)). }
  unfold bmat, vstack, nrows, kkt_matrix. cbn [concat].
  rewrite app_nil_r, Hlen, Htop, Hbot, app_tabulate. reflexivity.
Qed.

Lemma vstack_rhs_kkt N m q b :
  has_shape N 1 q = true -> has_shape m 1 b = true ->
  vstack [mneg q; mneg b] = kkt_rhs N m q b.
Proof.
  intros Hq Hb. unfold vstack, kkt_rhs. cbn. rewrite app_nil_r.
  rewrite (shape_tabulate N 1 q Hq) at 1.
  rewrite (shape_tabulate m 1 b Hb) at 1.
  rewrite !mneg_tabulate, app_tabulate.
  apply tabulate_ext. intros i j _ Hj.
  replace j with 0 by lia. reflexivity.
Qed.

(** The saddle-point matrix of a symmetric [P] is symmetric. *)
Lemma kkt_matrix_symmetric N m P A i j :
  (forall a b, a < N -> b < N -> entry P a b = entry P b a) ->
  i < N + m -> j < N + m ->
  entry (kkt_matrix N m P A) i j = entry (kkt_matrix N m P A) j i.
Proof.
  intros Hsym Hi Hj. unfold kkt_matrix. rewrite !tabulate_entry by lia.
  destruct (Nat.ltb_spec i N), (Nat.ltb_spec j N); auto.
Qed.
End Blocks.

Section SolveConstrained.
Context {R : Type} `{Scalar R} {expr : Type}.
Variable u : Utilities R expr.
Variable SLA : SparseLinalg R.
Implicit Types (objective : Objective expr)
  (constraints : list (Constraint expr))
  (sym_data : SymData (Constraint expr)).

(** C3: with at least one constraint, the coefficient matrices and vectors
    of the constraints are stacked in order into [As] and [bs], and the
    solver is called on the saddle-point matrix [[P, As^T], [As, 0]] and the
    right-hand side [-q; -bs].  The shapes are those of the collaborators'
    interface: [M] is (N+1) by (N+1), each constraint gives an [m_i] by [N]
    matrix and an [m_i] by 1 vector with [m_i > 0]. *)
Theorem solve_constrained_system objective constraints sym_data :
  let N := x_length sym_data in
  let id_map := var_offsets sym_data in
  let M := quad_coeffs u (args0 objective) id_map N in
  let P := quad_P M N in
  let q := quad_q M N in
  let r := quad_r M N in
  let Cs := map (fun c => affine_coeffs u (_expr c) id_map N) constraints in
  let As := concat (map fst Cs) in
  let bs := concat (map snd Cs) in
  let m := length As in
  0 < length constraints ->
  has_shape (S N) (S N) M = true ->
  forallb (coeffs_ok N) Cs = true ->
  has_shape m N As = true
  /\ has_shape m 1 bs = true
  /\ solve_system u objective constraints sym_data
     = (kkt_matrix N m P As, kkt_rhs N m q bs)
  /\ solve_triple u SLA objective constraints sym_data
     = solve_outcome N P q r
         (spsolve SLA (kkt_matrix N m P As) (kkt_rhs N m q bs)).
Proof.
  intros N id_map M P q r Cs As bs m Hpos HM HCs.
  destruct (vstack_coeffs_shape N Cs HCs) as (HAs & Hbs & Hm).
  change (has_shape m N As = true) in HAs.
  change (has_shape m 1 bs = true) in Hbs.
  change (0 < length Cs -> 0 < m) in Hm.
  assert (Hm' : 0 < m).
  { apply Hm. unfold Cs. rewrite length_map. exact Hpos. }
  assert (Hsys : solve_system u objective constraints sym_data
                 = (kkt_matrix N m P As, kkt_rhs N m q bs)).
  { unfold solve_system. apply Nat.ltb_lt in Hpos. rewrite Hpos.
    change (assemble P q Cs = (kkt_matrix N m P As, kkt_rhs N m q bs)).
    unfold assemble.
    change (vstack (map fst Cs)) with As.
    change (vstack (map snd Cs)) with bs.
    rewrite (bmat_kkt N m P As (quad_P_shape M N HM) HAs Hm').
    rewrite (vstack_rhs_kkt N m q bs (quad_q_shape M N HM) Hbs).
    reflexivity. }
  split; [exact HAs |]. split; [exact Hbs |]. split; [exact Hsys |].
  rewrite solve_triple_unfold, Hsys. reflexivity.
Qed.
End SolveConstrained.

(** [objective_1] under [constraint_1]: the system is
    [[2, 1], [1, 0]] [x; nu] = [-2; -1]. *)
Lemma solve_constrained_system_witness :
  let N := 1 in
  let M := [[Q2Qc 2; Q2Qc 1]; [Q2Qc 3; Q2Qc 5]] in
  let P := quad_P M N in
  let q := quad_q M N in
  let r := quad_r M N in
  let As := [[Q2Qc 1]] in
  let bs := [[Q2Qc 1]] in
  let m := 1 in
  has_shape m N As = true
  /\ has_shape m 1 bs = true
  /\ solve_system coeff_utilities objective_1 [constraint_1] sym_data_1
     = (kkt_matrix N m P As, kkt_rhs N m q bs)
  /\ solve_triple coeff_utilities gauss_SLA objective_1 [constraint_1] sym_data_1
     = solve_outcome N P q r
         (gauss_spsolve (kkt_matrix N m P As) (kkt_rhs N m q bs)).
Proof.
  apply (solve_constrained_system coeff_utilities gauss_SLA objective_1
           [constraint_1]
           sym_data_1).
  - cbn. lia.
  - reflexivity.
  - reflexivity.
Defined.

(** ** solve: an empty constraint list and a constraint row of zeros *)

Section ZeroRow.
Context {R : Type} `{Scalar R}.
Implicit Types (P q : matrix R) (x : list R).

Lemma column_app (a b : list R) : column (a ++ b) = column a ++ column b.
Proof. apply map_app. Qed.

Lemma column_inj (a b : list R) : column a = column b -> a = b.
Proof.
  revert b. induction a as [|v a IH]; intros [|w b]; cbn; try discriminate.
  - reflexivity.
  - intros [= -> Hab]. f_equal. apply IH, Hab.
Qed.

(** The system that [solve] assembles for one constraint row of zeros: every
    row of [P] is extended by a zero, and a row of zeros is added. *)
Lemma assemble_zero_row N P q :
  has_shape N N P = true ->
  assemble P q [(zeros 1 N, zeros 1 1)]
  = (map (fun row => row ++ [R0]) P ++ [repeat R0 N ++ [R0]],
     mneg q ++ [[Ropp R0]]).
Proof.
  intros [Hlen Hrows]%has_shape_spec. unfold assemble, bmat, vstack, nrows.
  cbn [map fst snd concat zeros repeat length]. rewrite !app_nil_r.
  f_equal. f_equal.
  unfold transpose, ncols, hstack. rewrite repeat_length.
  rewrite (list_as_map_seq P N [] Hlen) at 1.
  rewrite zip_with_map_same.
  rewrite (list_as_map_seq P N [] Hlen) at 1. rewrite map_map.
  apply map_ext_in. intros i Hi%in_seq. cbn [map].
  rewrite nth_repeat. reflexivity.
Qed.

Section Laws.
Hypothesis Radd_0_r : forall a : R, Radd a R0 = a.
Hypothesis Rmul_0_l : forall a : R, Rmul R0 a = R0.

Lemma dot_extended (row x : list R) (nu : R) :
  length row = length x ->
  dot (row ++ [R0]) (x ++ [nu]) = dot row x.
Proof using Radd_0_r Rmul_0_l.
  intros Hlen. unfold dot. rewrite zip_with_app by exact Hlen.
  rewrite fold_left_app. cbn. rewrite Rmul_0_l, Radd_0_r. reflexivity.
Qed.

(** A solution of the extended system restricts to a solution of
    [P x = -q]. *)
Lemma zero_row_solution_restricts N P q BB :
  has_shape N N P = true -> has_shape N 1 q = true ->
  length BB = N + 1 ->
  column (matvec (map (fun row => row ++ [R0]) P ++ [repeat R0 N ++ [R0]]) BB)
    = mneg q ++ [[Ropp R0]] ->
  column (matvec P (firstn N BB)) = mneg q.
Proof using Radd_0_r Rmul_0_l.
  intros HP Hq HBB Hsol.
  pose proof HP as [HPlen HProws]%has_shape_spec.
  pose proof Hq as [Hqlen _]%has_shape_spec.
  unfold matvec in Hsol. rewrite map_app, column_app in Hsol.
  apply app_inj_1 in Hsol as [Hsol _].
  2:{ unfold column, mneg. rewrite !length_map. lia. }
  rewrite <- Hsol. f_equal. unfold matvec. rewrite map_map.
  apply map_ext_in. intros row Hrow.
  rewrite <- (firstn_skipn N BB) at 2.
  destruct (skipn N BB) as [| nu [| ? ?]] eqn:Hskip.
  - apply (f_equal length) in Hskip. rewrite length_skipn in Hskip.
    cbn in Hskip. lia.
  - symmetry. apply dot_extended.
    rewrite (HProws row Hrow), length_firstn. lia.
  - apply (f_equal length) in Hskip. rewrite length_skipn in Hskip.
    cbn in Hskip. lia.
Qed.
End Laws.
End ZeroRow.

(** With the solver that raises on a singular matrix, the constraint row
    of zeros ends in the handler, and the empty constraint list in the
    primal [-1] with value 3. *)
Example solve_zero_row_constraint_infeasible :
  solve coeff_utilities gauss_SLA objective_1 [zero_row_constraint] sym_data_1
  = Ok {[ s.STATUS := PyStr s.INFEASIBLE ]}.
Proof. vm_compute. reflexivity. Qed.

Example solve_no_constraint_optimal :
  exists d, solve coeff_utilities gauss_SLA objective_1 [] sym_data_1 = Ok d
    /\ d !! s.STATUS = Some (PyStr s.OPTIMAL)
    /\ d !! s.PRIMAL = Some (PyArray [Q2Qc (-1)])
    /\ d !! s.VALUE = Some (PyFloat (Q2Qc 3)).
Proof.
  eexists. split; [reflexivity |].
  split; [vm_compute; reflexivity |].
  split; qc_compute_eq.
Qed.

(** * Further properties *)

(** ** solve: exceptions and statuses *)

(** A solver that raises ValueError: [solve] raises it as well. *)
Lemma solve_other_exception_propagates_witness :
  solve coeff_utilities (raising_SLA ValueError) objective_1 [constraint_1]
    sym_data_1 = Raise ValueError.
Proof.
  apply (solve_other_exception_propagates coeff_utilities
           (raising_SLA ValueError) objective_1 [constraint_1] sym_data_1
           ValueError); reflexivity.
Defined.

Section SolveStatus.
Context {R : Type} `{Scalar R} {expr : Type}.
Variable u : Utilities R expr.
Variable SLA : SparseLinalg R.
Implicit Types (objective : Objective expr)
  (constraints : list (Constraint expr))
  (sym_data : SymData (Constraint expr)).

(** A result with status "optimal" always carries a vector that the solver
    returned for the assembled system: the primal is its first [N] entries,
    the dual the rest, and the value is computed from that primal. *)
Theorem solve_optimal_inv objective constraints sym_data d :
  let N := x_length sym_data in
  solve u SLA objective constraints sym_data = Ok d ->
  d !! s.STATUS = Some (PyStr s.OPTIMAL) ->
  exists BB,
    spsolve SLA (fst (solve_system u objective constraints sym_data))
                (snd (solve_system u objective constraints sym_data)) = Ok BB
    /\ d !! s.PRIMAL = Some (PyArray (firstn N BB))
    /\ d !! s.EQ_DUAL = Some (PyArray (skipn N BB))
    /\ d !! s.VALUE
       = Some (PyFloat (objective_value (solve_P u objective sym_data)
                          (solve_q u objective sym_data)
                          (solve_r u objective sym_data) (firstn N BB))).
Proof.
  intros N Hsolve Hst.
  destruct (solve_Ok_inv u SLA objective constraints sym_data d Hsolve)
    as (x & nu & p_star & Ht & ->).
  rewrite solve_triple_unfold in Ht. cbn zeta in Ht.
  destruct (spsolve SLA _ _) as [BB | e].
  - injection Ht as <- <- <-. exists BB. split; [reflexivity |].
    pose proof (format_results_optimal (primal (x_length sym_data) BB)
                  (Some (dual (x_length sym_data) BB))
                  (Some (objective_value
                           (solve_P u objective sym_data)
                           (solve_q u objective sym_data)
                           (solve_r u objective sym_data)
                           (primal (x_length sym_data) BB))))
      as (Hval & Hpr & Hdu & _).
    auto.
  - cbn in Ht. destruct (isinstance_ArithmeticError e); [| discriminate].
    injection Ht as <- <- <-.
    rewrite format_results_status in Hst. discriminate.
Qed.

(** Without constraints, a solver that returns [N] entries gives a primal
    that is the whole vector and a dual that is the empty array: the key of
    the dual is present and holds no entry. *)
Theorem solve_unconstrained_dual_empty objective sym_data BB :
  spsolve SLA (solve_P u objective sym_data)
              (mneg (solve_q u objective sym_data)) = Ok BB ->
  length BB = x_length sym_data ->
  exists d, solve u SLA objective [] sym_data = Ok d
    /\ d !! s.STATUS = Some (PyStr s.OPTIMAL)
    /\ d !! s.PRIMAL = Some (PyArray BB)
    /\ d !! s.EQ_DUAL = Some (PyArray []).
Proof.
  intros Hsol Hlen.
  rewrite solve_unfold, solve_triple_unfold. cbn zeta.
  change (solve_system u objective [] sym_data)
    with (solve_P u objective sym_data, mneg (solve_q u objective sym_data)).
  cbn [fst snd]. rewrite Hsol. cbn [solve_outcome].
  unfold primal, dual. rewrite firstn_all2, skipn_all2 by lia.
  eexists. split; [reflexivity |].
  split; [apply (format_results_status (Some BB)) |].
  pose proof (format_results_optimal BB (Some [])
                (Some (objective_value
                         (quad_P (quad_coeffs u (args0 objective)
                                    (var_offsets sym_data)
                                    (x_length sym_data))
                                 (x_length sym_data))
                         (quad_q (quad_coeffs u (args0 objective)
                                    (var_offsets sym_data)
                                    (x_length sym_data))
                                 (x_length sym_data))
                         (quad_r (quad_coeffs u (args0 objective)
                                    (var_offsets sym_data)
                                    (x_length sym_data))
                                 (x_length sym_data)) BB)))
    as (_ & Hpr & Hdu & _).
  auto.
Qed.
End SolveStatus.

Lemma solve_optimal_inv_witness :
  exists BB,
    gauss_spsolve
      (fst (solve_system coeff_utilities objective_1 [constraint_1]
              sym_data_1))
      (snd (solve_system coeff_utilities objective_1 [constraint_1]
              sym_data_1)) = Ok BB
    /\ result_1 !! s.PRIMAL = Some (PyArray (firstn 1 BB))
    /\ result_1 !! s.EQ_DUAL = Some (PyArray (skipn 1 BB))
    /\ result_1 !! s.VALUE
       = Some (PyFloat (objective_value
                  (solve_P coeff_utilities objective_1 sym_data_1)
                  (solve_q coeff_utilities objective_1 sym_data_1)
                  (solve_r coeff_utilities objective_1 sym_data_1)
                  (firstn 1 BB))).
Proof.
  apply (solve_optimal_inv coeff_utilities gauss_SLA objective_1
           [constraint_1] sym_data_1 result_1).
  - rewrite solve_unfold, solve_triple_unfold. cbn zeta.
    replace (spsolve gauss_SLA _ _) with (Ok solution_1)
      by (symmetry; qc_compute_eq).
    reflexivity.
  - apply (format_results_status (Some (firstn 1 solution_1))).
Defined.

Lemma solve_unconstrained_dual_empty_witness :
  exists d, solve coeff_utilities gauss_SLA objective_1 [] sym_data_1 = Ok d
    /\ d !! s.STATUS = Some (PyStr s.OPTIMAL)
    /\ d !! s.PRIMAL = Some (PyArray solution_0)
    /\ d !! s.EQ_DUAL = Some (PyArray []).
Proof.
  apply (solve_unconstrained_dual_empty coeff_utilities gauss_SLA
           objective_1 sym_data_1 solution_0).
  - qc_compute_eq.
  - reflexivity.
Defined.

(** ** solve: the saddle-point system and its solutions *)

Section SaddlePointFacts.
Context {R : Type} `{Scalar R}.
Implicit Types (P q A b : matrix R) (x nu sol row : list R).

Lemma kkt_row_top N m P A i :
  i < N ->
  nth i (kkt_matrix N m P A) []
  = map (entry P i) (seq 0 N) ++ map (fun k => entry A k i) (seq 0 m).
Proof.
  intros Hi. unfold kkt_matrix, tabulate.
  rewrite (nth_map_seq _ (N + m) i []) by lia.
  rewrite seq_app, map_app, Nat.add_0_l. f_equal.
  - apply map_ext_in. intros j Hj%in_seq.
    destruct (Nat.ltb_spec i N), (Nat.ltb_spec j N); try lia. reflexivity.
  - rewrite (map_seq_shift _ N m). apply map_ext_in. intros k _.
    destruct (Nat.ltb_spec i N), (Nat.ltb_spec (N + k) N); try lia.
    replace (N + k - N) with k by lia. reflexivity.
Qed.

Lemma kkt_row_bottom N m P A k :
  k < m ->
  nth (N + k) (kkt_matrix N m P A) []
  = map (entry A k) (seq 0 N) ++ repeat R0 m.
Proof.
  intros Hk. unfold kkt_matrix, tabulate.
  rewrite (nth_map_seq _ (N + m) (N + k) []) by lia.
  rewrite seq_app, map_app, Nat.add_0_l. f_equal.
  - apply map_ext_in. intros j Hj%in_seq.
    destruct (Nat.ltb_spec (N + k) N), (Nat.ltb_spec j N); try lia.
    replace (N + k - N) with k by lia. reflexivity.
  - rewrite (map_seq_shift _ N m), repeat_as_map.
    apply map_ext_in. intros j _.
    destruct (Nat.ltb_spec (N + k) N), (Nat.ltb_spec (N + j) N); try lia.
    reflexivity.
Qed.

Lemma kkt_matrix_length N m P A : length (kkt_matrix N m P A) = N + m.
Proof. unfold kkt_matrix, tabulate. rewrite length_map, length_seq. reflexivity. Qed.

(** Row by row, what it means that [sol] solves the system. *)
Lemma kkt_solution_rows N m P q A b sol i :
  column (matvec (kkt_matrix N m P A) sol) = kkt_rhs N m q b ->
  i < N + m ->
  dot (nth i (kkt_matrix N m P A) []) sol
  = if i <? N then Ropp (entry q i 0) else Ropp (entry b (i - N) 0).
Proof.
  intros Hsol Hi.
  apply (f_equal (fun C => entry C i 0)) in Hsol.
  unfold kkt_rhs in Hsol. rewrite tabulate_entry in Hsol by lia.
  rewrite <- Hsol. unfold entry, column, matvec. rewrite map_map.
  rewrite (nth_indep (map (fun row => [dot row sol]) (kkt_matrix N m P A))
             [] [dot [] sol])
    by (rewrite length_map, kkt_matrix_length; lia).
  rewrite (map_nth (fun row => [dot row sol])). reflexivity.
Qed.

Lemma dot_app_acc (r1 r2 x nu : list R) :
  length r1 = length x ->
  dot (r1 ++ r2) (x ++ nu) = fold_left Radd (zip_with Rmul r2 nu) (dot r1 x).
Proof.
  intros Hlen. unfold dot. rewrite zip_with_app by exact Hlen.
  apply fold_left_app.
Qed.

Section ZeroLaws.
Hypothesis Radd_0_r : forall a : R, Radd a R0 = a.
Hypothesis Rmul_0_l : forall a : R, Rmul R0 a = R0.

Lemma fold_zero_products k nu (a : R) :
  fold_left Radd (zip_with Rmul (repeat R0 k) nu) a = a.
Proof using Radd_0_r Rmul_0_l.
  revert nu a. induction k as [|k IH]; intros nu a; [reflexivity |].
  destruct nu as [|v nu]; [reflexivity |].
  cbn. rewrite Rmul_0_l, Radd_0_r. apply IH.
Qed.

Lemma dot_zero_row k sol : dot (repeat R0 k) sol = R0.
Proof using Radd_0_r Rmul_0_l. apply fold_zero_products. Qed.
End ZeroLaws.

Section MonoidLaws.
Hypothesis Radd_assoc :
  forall a b c : R, Radd (Radd a b) c = Radd a (Radd b c).
Hypothesis Radd_0_l : forall a : R, Radd R0 a = a.
Hypothesis Radd_0_r : forall a : R, Radd a R0 = a.

Lemma fold_left_Radd_acc (l : list R) (a : R) :
  fold_left Radd l a = Radd a (fold_left Radd l R0).
Proof using Radd_assoc Radd_0_l Radd_0_r.
  revert a. induction l as [|v l IH]; intros a; cbn.
  - symmetry. apply Radd_0_r.
  - rewrite (IH (Radd a v)), (IH (Radd R0 v)), Radd_0_l.
    apply Radd_assoc.
Qed.
End MonoidLaws.
End SaddlePointFacts.

Section SaddlePoint.
Context {R : Type} `{Scalar R} {expr : Type}.
Variable u : Utilities R expr.
Implicit Types (objective : Objective expr)
  (constraints : list (Constraint expr))
  (sym_data : SymData (Constraint expr)).

(** With the shapes of the interface, the assembled system is the
    saddle-point system of [P], [q], [As] and [bs]. *)
Lemma constrained_shapes_system objective constraints sym_data :
  constrained_shapes u objective constraints sym_data = true ->
  let N := x_length sym_data in
  let m := length (solve_As u constraints sym_data) in
  0 < m
  /\ has_shape N N (solve_P u objective sym_data) = true
  /\ has_shape N 1 (solve_q u objective sym_data) = true
  /\ has_shape m N (solve_As u constraints sym_data) = true
  /\ has_shape m 1 (solve_bs u constraints sym_data) = true
  /\ solve_system u objective constraints sym_data
     = (kkt_matrix N m (solve_P u objective sym_data)
          (solve_As u constraints sym_data),
        kkt_rhs N m (solve_q u objective sym_data)
          (solve_bs u constraints sym_data)).
Proof.
  intros Hok N m. unfold constrained_shapes in Hok.
  apply andb_true_iff in Hok as [Hok HCs].
  apply andb_true_iff in Hok as [Hpos HM].
  destruct (vstack_coeffs_shape (x_length sym_data)
              (solve_Cs u constraints sym_data) HCs) as (HAs & Hbs & Hm).
  change (has_shape m N (solve_As u constraints sym_data) = true) in HAs.
  change (has_shape m 1 (solve_bs u constraints sym_data) = true) in Hbs.
  assert (Hm' : 0 < m).
  { apply Hm. unfold solve_Cs. rewrite length_map.
    apply Nat.ltb_lt, Hpos. }
  pose proof (quad_P_shape _ _ HM) as HP.
  pose proof (quad_q_shape _ _ HM) as Hq.
  repeat (split; [assumption |]).
  unfold solve_system. rewrite Hpos.
  change (assemble (solve_P u objective sym_data)
            (solve_q u objective sym_data) (solve_Cs u constraints sym_data)
          = (kkt_matrix N m (solve_P u objective sym_data)
               (solve_As u constraints sym_data),
             kkt_rhs N m (solve_q u objective sym_data)
               (solve_bs u constraints sym_data))).
  unfold assemble.
  change (vstack (map fst (solve_Cs u constraints sym_data)))
    with (solve_As u constraints sym_data).
  change (vstack (map snd (solve_Cs u constraints sym_data)))
    with (solve_bs u constraints sym_data).
  rewrite (bmat_kkt N m _ _ HP HAs Hm'), (vstack_rhs_kkt N m _ _ Hq Hbs).
  reflexivity.
Qed.

(** The matrix handed to the solver is square of order [N + m], the
    right-hand side is a column of [N + m] entries, and the matrix is
    symmetric when the quadratic block of [M] is. *)
Theorem solve_system_square_symmetric objective constraints sym_data :
  let N := x_length sym_data in
  let m := length (solve_As u constraints sym_data) in
  let AA := fst (solve_system u objective constraints sym_data) in
  let BB := snd (solve_system u objective constraints sym_data) in
  constrained_shapes u objective constraints sym_data = true ->
  (forall a b, a < N -> b < N ->
     entry (solve_M u objective sym_data) a b
     = entry (solve_M u objective sym_data) b a) ->
  has_shape (N + m) (N + m) AA = true
  /\ has_shape (N + m) 1 BB = true
  /\ forall i j, i < N + m -> j < N + m -> entry AA i j = entry AA j i.
Proof.
  intros N m AA BB Hok Hsym.
  pose proof Hok as [HM _]%andb_true_iff. apply andb_true_iff in HM as [_ HM].
  destruct (constrained_shapes_system _ _ _ Hok) as (_ & _ & _ & _ & _ & Hsys).
  unfold AA, BB. rewrite Hsys. cbn [fst snd].
  split; [apply tabulate_shape |]. split; [apply tabulate_shape |].
  intros i j Hi Hj. apply kkt_matrix_symmetric; [| assumption | assumption].
  intros a b Ha Hb. unfold solve_P.
  rewrite !quad_P_entry by assumption. apply Hsym; assumption.
Qed.

(** A constraint row whose coefficients are all zero gives a row and a
    column of zeros in the matrix handed to the solver. *)
Theorem solve_system_zero_row objective constraints sym_data k :
  let N := x_length sym_data in
  let m := length (solve_As u constraints sym_data) in
  let AA := fst (solve_system u objective constraints sym_data) in
  constrained_shapes u objective constraints sym_data = true ->
  k < m ->
  (forall j, j < N -> entry (solve_As u constraints sym_data) k j = R0) ->
  forall j, j < N + m ->
    entry AA (N + k) j = R0 /\ entry AA j (N + k) = R0.
Proof.
  intros N m AA Hok Hk Hzero j Hj.
  destruct (constrained_shapes_system _ _ _ Hok) as (_ & _ & _ & _ & _ & Hsys).
  unfold AA. rewrite Hsys. cbn [fst snd]. unfold kkt_matrix.
  rewrite !tabulate_entry by lia. fold N.
  destruct (Nat.ltb_spec (N + k) N); [lia |].
  replace (N + k - N) with k by lia.
  destruct (Nat.ltb_spec j N); split; auto.
Qed.

Section ZeroLaws.
Hypothesis Radd_0_r : forall a : R, Radd a R0 = a.
Hypothesis Rmul_0_l : forall a : R, Rmul R0 a = R0.

(** If the coefficients of a constraint row are all zero and the negated
    constant of that row is not zero, no vector solves the system handed to
    the solver. *)
Theorem solve_system_inconsistent_row objective constraints sym_data k sol :
  let N := x_length sym_data in
  let m := length (solve_As u constraints sym_data) in
  let AA := fst (solve_system u objective constraints sym_data) in
  let BB := snd (solve_system u objective constraints sym_data) in
  constrained_shapes u objective constraints sym_data = true ->
  k < m ->
  (forall j, j < N -> entry (solve_As u constraints sym_data) k j = R0) ->
  Ropp (entry (solve_bs u constraints sym_data) k 0) <> R0 ->
  column (matvec AA sol) <> BB.
Proof using Radd_0_r Rmul_0_l.
  intros N m AA BB Hok Hk Hzero Hb Hsol.
  destruct (constrained_shapes_system _ _ _ Hok) as (_ & _ & _ & _ & _ & Hsys).
  unfold AA, BB in Hsol. rewrite Hsys in Hsol. cbn [fst snd] in Hsol.
  fold N m in Hsol.
  pose proof (kkt_solution_rows _ _ _ _ _ _ _ (N + k) Hsol) as Hrow.
  rewrite kkt_row_bottom in Hrow by exact Hk.
  destruct (Nat.ltb_spec (N + k) N); [lia |].
  replace (N + k - N) with k in Hrow by lia.
  apply Hb. rewrite <- Hrow by lia.
  replace (map (entry (solve_As u constraints sym_data) k) (seq 0 N))
    with (repeat (R0 : R) N).
  - rewrite <- repeat_app. apply (dot_zero_row Radd_0_r Rmul_0_l).
  - rewrite repeat_as_map. apply map_ext_in. intros j Hj%in_seq.
    symmetry. apply Hzero. lia.
Qed.

(** Primal feasibility: when the vector that the solver returns solves the
    system, its first [N] entries [x] satisfy the stacked constraints,
    [As x = -bs]. *)
Theorem solve_system_primal_feasible objective constraints sym_data sol :
  let N := x_length sym_data in
  let m := length (solve_As u constraints sym_data) in
  let AA := fst (solve_system u objective constraints sym_data) in
  let BB := snd (solve_system u objective constraints sym_data) in
  constrained_shapes u objective constraints sym_data = true ->
  length sol = N + m ->
  column (matvec AA sol) = BB ->
  column (matvec (solve_As u constraints sym_data) (firstn N sol))
  = mneg (solve_bs u constraints sym_data).
Proof using Radd_0_r Rmul_0_l.
  intros N m AA BB Hok Hlen Hsol.
  destruct (constrained_shapes_system _ _ _ Hok)
    as (_ & _ & _ & HAs & Hbs & Hsys).
  fold N m in HAs, Hbs.
  unfold AA, BB in Hsol. rewrite Hsys in Hsol. cbn [fst snd] in Hsol.
  fold N m in Hsol.
  pose proof HAs as [HAlen _]%has_shape_spec.
  rewrite (shape_tabulate m 1 _ Hbs), mneg_tabulate.
  unfold column, matvec, tabulate. rewrite map_map.
  rewrite (list_as_map_seq (solve_As u constraints sym_data) m [] HAlen)
    at 1.
  rewrite map_map. apply map_ext_in. intros k Hk%in_seq. cbn [map seq].
  f_equal.
  pose proof (kkt_solution_rows _ _ _ _ _ _ _ (N + k) Hsol) as Hrow.
  rewrite kkt_row_bottom in Hrow by lia.
  destruct (Nat.ltb_spec (N + k) N); [lia |].
  replace (N + k - N) with k in Hrow by lia.
  rewrite <- Hrow by lia.
  rewrite <- (firstn_skipn N sol) at 2.
  rewrite dot_app_acc
    by (rewrite length_map, length_seq, length_firstn; lia).
  rewrite (fold_zero_products Radd_0_r Rmul_0_l).
  f_equal. apply list_as_map_seq.
  apply (has_shape_row m N); [exact HAs | lia].
Qed.
End ZeroLaws.

Section MonoidLaws.
Hypothesis Radd_assoc :
  forall a b c : R, Radd (Radd a b) c = Radd a (Radd b c).
Hypothesis Radd_0_l : forall a : R, Radd R0 a = a.
Hypothesis Radd_0_r : forall a : R, Radd a R0 = a.

(** Stationarity: when the vector that the solver returns solves the
    system, its primal part [x] and dual part [nu] satisfy
    [P x + As^T nu = -q]. *)
Theorem solve_system_stationary objective constraints sym_data sol :
  let N := x_length sym_data in
  let m := length (solve_As u constraints sym_data) in
  let AA := fst (solve_system u objective constraints sym_data) in
  let BB := snd (solve_system u objective constraints sym_data) in
  constrained_shapes u objective constraints sym_data = true ->
  length sol = N + m ->
  column (matvec AA sol) = BB ->
  madd (column (matvec (solve_P u objective sym_data) (firstn N sol)))
       (column (matvec (transpose (solve_As u constraints sym_data))
                  (skipn N sol)))
  = mneg (solve_q u objective sym_data).
Proof using Radd_assoc Radd_0_l Radd_0_r.
  intros N m AA BB Hok Hlen Hsol.
  destruct (constrained_shapes_system _ _ _ Hok)
    as (Hm & HP & Hq & HAs & _ & Hsys).
  fold N m in Hm, HP, Hq, HAs.
  unfold AA, BB in Hsol. rewrite Hsys in Hsol. cbn [fst snd] in Hsol.
  fold N m in Hsol.
  pose proof HP as [HPlen _]%has_shape_spec.
  rewrite (transpose_tabulate m N _ HAs Hm).
  rewrite (shape_tabulate N 1 _ Hq), mneg_tabulate.
  unfold madd, column, matvec, tabulate. rewrite !map_map.
  rewrite (list_as_map_seq (solve_P u objective sym_data) N [] HPlen) at 1.
  rewrite map_map, zip_with_map_same.
  apply map_ext_in. intros i Hi%in_seq. cbn [map seq zip_with].
  f_equal.
  pose proof (kkt_solution_rows _ _ _ _ _ _ _ i Hsol) as Hrow.
  rewrite kkt_row_top in Hrow by lia.
  destruct (Nat.ltb_spec i N); [| lia].
  rewrite <- Hrow by lia.
  rewrite <- (firstn_skipn N sol) at 3.
  rewrite dot_app_acc
    by (rewrite length_map, length_seq, length_firstn; lia).
  rewrite (fold_left_Radd_acc Radd_assoc Radd_0_l Radd_0_r).
  f_equal. f_equal. apply list_as_map_seq.
  apply (has_shape_row N N); [exact HP | lia].
Qed.
End MonoidLaws.
End SaddlePoint.

(** [objective_sym] under [constraint_1]: the system is
    [[3, 1], [1, 0]] [x; nu] = [-1; -1]. *)
Lemma solve_system_square_symmetric_witness :
  let AA :=
    fst (solve_system coeff_utilities objective_sym [constraint_1]
           sym_data_1) in
  let BB :=
    snd (solve_system coeff_utilities objective_sym [constraint_1]
           sym_data_1) in
  has_shape (1 + 1) (1 + 1) AA = true
  /\ has_shape (1 + 1) 1 BB = true
  /\ forall i j, i < 1 + 1 -> j < 1 + 1 -> entry AA i j = entry AA j i.
Proof.
  apply (solve_system_square_symmetric coeff_utilities objective_sym
           [constraint_1] sym_data_1).
  - reflexivity.
  - intros a b Ha Hb. replace a with 0 by (cbn in Ha; lia).
    replace b with 0 by (cbn in Hb; lia). reflexivity.
Defined.

(** [objective_1] under the constraint row of zeros: the last row and the
    last column of [[2, 0], [0, 0]] are zero. *)
Lemma solve_system_zero_row_witness :
  let AA :=
    fst (solve_system coeff_utilities objective_1 [zero_row_constraint]
           sym_data_1) in
  entry AA (1 + 0) 0 = R0 /\ entry AA 0 (1 + 0) = R0.
Proof.
  apply (solve_system_zero_row coeff_utilities objective_1
           [zero_row_constraint] sym_data_1 0).
  - reflexivity.
  - cbn. lia.
  - intros j Hj. replace j with 0 by (cbn in Hj; lia). reflexivity.
  - cbn. lia.
Defined.

(** [0 x + 1 = 0]: the vector [-1; 0] does not solve
    [[2, 0], [0, 0]] [x; nu] = [-2; -1], and no other vector does. *)
Lemma solve_system_inconsistent_row_witness :
  column
    (matvec
       (fst (solve_system coeff_utilities objective_1
               [inconsistent_constraint] sym_data_1)) solution_1)
  <> snd (solve_system coeff_utilities objective_1
            [inconsistent_constraint] sym_data_1).
Proof.
  apply (solve_system_inconsistent_row (H:=Qc_Scalar) coeff_utilities
           Qcplus_0_r Qcmult_0_l objective_1 [inconsistent_constraint] sym_data_1 0
           solution_1).
  - reflexivity.
  - cbn. lia.
  - intros j Hj. replace j with 0 by (cbn in Hj; lia). reflexivity.
  - intros Hneg. apply (f_equal this) in Hneg. vm_compute in Hneg.
    discriminate Hneg.
Defined.

(** [objective_1] under [x + 1 = 0]: the solution [-1; 0] has the feasible
    primal [-1]. *)
Lemma solve_system_primal_feasible_witness :
  column (matvec (solve_As coeff_utilities [constraint_1] sym_data_1)
            (firstn 1 solution_1))
  = mneg (solve_bs coeff_utilities [constraint_1] sym_data_1).
Proof.
  apply (solve_system_primal_feasible (H:=Qc_Scalar) coeff_utilities
           Qcplus_0_r Qcmult_0_l objective_1 [constraint_1] sym_data_1 solution_1).
  - reflexivity.
  - reflexivity.
  - qc_compute_eq.
Defined.

Lemma solve_system_stationary_witness :
  madd (column (matvec (solve_P coeff_utilities objective_1 sym_data_1)
                  (firstn 1 solution_1)))
       (column (matvec
                  (transpose
                     (solve_As coeff_utilities [constraint_1] sym_data_1))
                  (skipn 1 solution_1)))
  = mneg (solve_q coeff_utilities objective_1 sym_data_1).
Proof.
  apply (solve_system_stationary (H:=Qc_Scalar) coeff_utilities
           (fun a b c => eq_sym (Qcplus_assoc a b c)) Qcplus_0_l Qcplus_0_r
           objective_1 [constraint_1] sym_data_1 solution_1).
  - reflexivity.
  - reflexivity.
  - qc_compute_eq.
Defined.

(** ** solve: symmetric coefficients *)

Section SymmetricCoefficients.
Context {R : Type} `{Scalar R}.

(** When the last row of [M] repeats its last column, the averaging leaves
    the column as it is: [q = M[:N, N]].  The scalars satisfy
    [(a + a) / 2 = a]. *)
Theorem quad_q_symmetric (M : matrix R) (N : nat) :
  (forall a : R, Rdiv (Radd a a) R2 = a) ->
  has_shape (S N) (S N) M = true ->
  (forall i, i < N -> entry M N i = entry M i N) ->
  quad_q M N = slice_col M N N.
Proof.
  intros Hhalf Hs Hsym.
  rewrite (quad_q_tabulate M N Hs), (slice_col_tabulate M N Hs).
  apply tabulate_ext. intros i j Hi _. rewrite (Hsym i Hi). apply Hhalf.
Qed.
End SymmetricCoefficients.

Lemma quad_q_symmetric_witness :
  quad_q [[Q2Qc 3; Q2Qc 1]; [Q2Qc 1; Q2Qc 1]] 1
  = slice_col [[Q2Qc 3; Q2Qc 1]; [Q2Qc 1; Q2Qc 1]] 1 1.
Proof.
  apply (quad_q_symmetric (H:=Qc_Scalar)).
  - intros a. change ((a + a) / Q2Qc 2 = a)%Qc.
    apply Qc_is_canon. unfold Qcdiv, Qcmult, Qcplus, Qcinv. cbn [this Q2Qc].
    rewrite !Qred_correct. field.
  - reflexivity.
  - intros i Hi. replace i with 0 by lia. reflexivity.
Defined.

(** ** get_var_offsets: duplicates, order and concatenation *)

Section VarOffsetsMore.
Implicit Types (variables : list Var) (x y : Var).

Lemma get_var_offsets_dom variables :
  dom (get_var_offsets variables).1.1 = list_to_set (map var.id variables)
  /\ dom (get_var_offsets variables).1.2
     = list_to_set (map var.id variables).
Proof.
  split.
  - induction variables as [|x variables IH] using rev_ind.
    + cbn. apply dom_empty_L.
    + rewrite get_var_offsets_snoc, map_app, list_to_set_app_L. cbn.
      rewrite dom_insert_L, IH, (right_id_L ∅ (∪)). apply (comm_L (∪)).
  - induction variables as [|x variables IH] using rev_ind.
    + cbn. apply dom_empty_L.
    + rewrite get_var_offsets_snoc, map_app, list_to_set_app_L. cbn.
      rewrite dom_insert_L, IH, (right_id_L ∅ (∪)). apply (comm_L (∪)).
Qed.

(** The keys of both dictionaries are the identifiers that occur, with or
    without repetitions, and the total is the sum of all flattened sizes,
    a repeated variable counted each time. *)
Theorem get_var_offsets_keys variables :
  dom (get_var_offsets variables).1.1 = list_to_set (map var.id variables)
  /\ dom (get_var_offsets variables).1.2
     = list_to_set (map var.id variables)
  /\ (get_var_offsets variables).2 = sum_list_with flat_size variables.
Proof.
  destruct (get_var_offsets_dom variables) as [Ho Hs].
  split; [exact Ho |]. split; [exact Hs | apply get_var_offsets_length].
Qed.

(** The last occurrence of an identifier decides its entries: its offset is
    the total size of everything before that occurrence, and its size is
    the size of that occurrence. *)
Theorem get_var_offsets_last_occurrence variables i x :
  variables !! i = Some x ->
  (forall j y, i < j -> variables !! j = Some y -> var.id y <> var.id x) ->
  (get_var_offsets variables).1.1 !! var.id x
    = Some (prefix_size variables i)
  /\ (get_var_offsets variables).1.2 !! var.id x = Some (var.size x).
Proof.
  revert i x.
  induction variables as [|z variables IH] using rev_ind;
    intros i x Hi Hlast.
  - discriminate.
  - rewrite get_var_offsets_snoc. cbn.
    destruct (decide (i < length variables)) as [Hlt | Hge].
    + rewrite lookup_app_l in Hi by exact Hlt.
      assert (Hne : var.id z <> var.id x).
      { apply (Hlast (length variables) z Hlt).
        apply list_lookup_middle. reflexivity. }
      rewrite !lookup_insert_ne by exact Hne.
      unfold prefix_size. rewrite take_app_le by lia.
      apply IH; [exact Hi |].
      intros j y Hij Hj. apply (Hlast j y Hij).
      rewrite lookup_app_l; [exact Hj |]. eapply lookup_lt_Some, Hj.
    + assert (Hlen : i = length variables).
      { apply lookup_lt_Some in Hi. rewrite length_app in Hi. cbn in Hi. lia. }
      subst i. rewrite list_lookup_middle in Hi by reflexivity.
      injection Hi as <-.
      rewrite !lookup_insert_eq. split; [| reflexivity].
      unfold prefix_size. rewrite take_app_le, firstn_all by lia.
      rewrite get_var_offsets_length. reflexivity.
Qed.

(** The order of the variables changes the offsets, but neither the total
    length nor, for distinct identifiers, the recorded sizes and the keys
    of the offsets. *)
Theorem get_var_offsets_permutation variables variables' :
  variables ≡ₚ variables' ->
  NoDup (map var.id variables) ->
  (get_var_offsets variables).2 = (get_var_offsets variables').2
  /\ (get_var_offsets variables).1.2 = (get_var_offsets variables').1.2
  /\ dom (get_var_offsets variables).1.1
     = dom (get_var_offsets variables').1.1.
Proof.
  intros Hperm Hnd.
  assert (Hnd' : NoDup (map var.id variables')).
  { assert (Hp : map var.id variables ≡ₚ map var.id variables')
      by apply Permutation_map, Hperm.
    rewrite <- Hp. exact Hnd. }
  split; [| split].
  - rewrite !get_var_offsets_length.
    apply (sum_list_with_Permutation_proper flat_size), Hperm.
  - apply map_eq. intros key.
    destruct (decide (key ∈ map var.id variables)) as [Hin | Hout].
    + apply list_elem_of_fmap in Hin as (x & -> & Hx).
      pose proof Hx as Hx'. rewrite Hperm in Hx'.
      apply list_elem_of_lookup in Hx as [i Hi].
      apply list_elem_of_lookup in Hx' as [j Hj].
      destruct (get_var_offsets_lookup variables i x Hnd Hi) as [_ ->].
      destruct (get_var_offsets_lookup variables' j x Hnd' Hj) as [_ ->].
      reflexivity.
    + destruct (get_var_offsets_fresh variables key Hout) as [_ ->].
      assert (Hout' : key ∉ map var.id variables').
      { intros Hin. apply Hout.
        eapply elem_of_Permutation_proper; [| exact Hin].
        apply Permutation_map, Hperm. }
      destruct (get_var_offsets_fresh variables' key Hout') as [_ ->].
      reflexivity.
  - destruct (get_var_offsets_dom variables) as [-> _].
    destruct (get_var_offsets_dom variables') as [-> _].
    apply set_eq. intros key. rewrite !elem_of_list_to_set.
    apply elem_of_Permutation_proper, Permutation_map, Hperm.
Qed.

(** Concatenation: when no identifier of [l2] occurs in [l1], the variables
    of [l1] keep their offsets, those of [l2] are shifted by the total
    length of [l1], the sizes are joined and the lengths add up. *)
Theorem get_var_offsets_app (l1 l2 : list Var) :
  (forall x y, x ∈ l1 -> y ∈ l2 -> var.id x <> var.id y) ->
  (get_var_offsets (l1 ++ l2)).1.1
    = (get_var_offsets l1).1.1
      ∪ ((fun o => (get_var_offsets l1).2 + o) <$> (get_var_offsets l2).1.1)
  /\ (get_var_offsets (l1 ++ l2)).1.2
     = (get_var_offsets l1).1.2 ∪ (get_var_offsets l2).1.2
  /\ (get_var_offsets (l1 ++ l2)).2
     = (get_var_offsets l1).2 + (get_var_offsets l2).2.
Proof.
  induction l2 as [|z l2 IH] using rev_ind; intros Hdisj.
  - rewrite app_nil_r. cbn. rewrite fmap_empty, !(right_id_L ∅ (∪)).
    split; [reflexivity |]. split; [reflexivity |].
    symmetry. apply Nat.add_0_r.
  - destruct IH as (IHo & IHs & IHn).
    { intros x y Hx Hy. apply Hdisj; [exact Hx |].
      apply elem_of_app. left. exact Hy. }
    assert (Hfresh : var.id z ∉ map var.id l1).
    { intros (x & Heq & Hx)%list_elem_of_fmap.
      apply (Hdisj x z Hx); [| symmetry; exact Heq].
      apply elem_of_app. right. apply list_elem_of_singleton. reflexivity. }
    destruct (get_var_offsets_fresh l1 (var.id z) Hfresh) as [Ho1 Hs1].
    rewrite app_assoc, !get_var_offsets_snoc. cbn. rewrite IHo, IHs, IHn.
    rewrite fmap_insert, !insert_union_r by assumption.
    split; [reflexivity |]. split; [reflexivity |]. lia.
Qed.
End VarOffsetsMore.

(** [x7b] repeats the identifier 7 after [x7] and [x8]: the entry of 7 is
    the offset 7 and the size of [x7b]. *)
Lemma get_var_offsets_last_occurrence_witness :
  (get_var_offsets [x7; x8; x7b]).1.1 !! var.id x7b
    = Some (prefix_size [x7; x8; x7b] 2)
  /\ (get_var_offsets [x7; x8; x7b]).1.2 !! var.id x7b
     = Some (var.size x7b).
Proof.
  apply (get_var_offsets_last_occurrence [x7; x8; x7b] 2 x7b).
  - reflexivity.
  - intros [| [| [| j]]] y Hj Hy; try lia. discriminate Hy.
Defined.

Example get_var_offsets_repeated :
  get_var_offsets [x7; x8; x7b]
  = ({[ 7%Z := 7; 8%Z := 1 ]}, {[ 7%Z := (2, 2); 8%Z := (2, 3) ]}, 11).
Proof. vm_compute. reflexivity. Qed.

Lemma get_var_offsets_permutation_witness :
  (get_var_offsets [x9; x7; x8]).2 = (get_var_offsets [x7; x8; x9]).2
  /\ (get_var_offsets [x9; x7; x8]).1.2 = (get_var_offsets [x7; x8; x9]).1.2
  /\ dom (get_var_offsets [x9; x7; x8]).1.1
     = dom (get_var_offsets [x7; x8; x9]).1.1.
Proof.
  apply (get_var_offsets_permutation [x9; x7; x8] [x7; x8; x9]).
  - apply (Permutation_cons_append [x7; x8] x9).
  - apply (bool_decide_unpack _). vm_compute. reflexivity.
Defined.

Lemma get_var_offsets_app_witness :
  (get_var_offsets ([x7; x8] ++ [x9])).1.1
    = (get_var_offsets [x7; x8]).1.1
      ∪ ((fun o => (get_var_offsets [x7; x8]).2 + o)
           <$> (get_var_offsets [x9]).1.1)
  /\ (get_var_offsets ([x7; x8] ++ [x9])).1.2
     = (get_var_offsets [x7; x8]).1.2 ∪ (get_var_offsets [x9]).1.2
  /\ (get_var_offsets ([x7; x8] ++ [x9])).2
     = (get_var_offsets [x7; x8]).2 + (get_var_offsets [x9]).2.
Proof.
  apply (get_var_offsets_app [x7; x8] [x9]).
  intros x y Hx Hy.
  apply list_elem_of_singleton in Hy as ->.
  apply elem_of_cons in Hx as [-> | Hx]; [discriminate |].
  apply list_elem_of_singleton in Hx as ->. discriminate.
Defined.

(** ** get_sym_data and split_constr *)

Section SymDataFacts.
Context {expr : Type}.
Variable objective_variables : Objective expr -> list Var.
Variable constraint_variables : Constraint expr -> list Var.
Variable list_set : list Var -> list Var.
Implicit Types (objective : Objective expr)
  (constraints : list (Constraint expr)) (x y : Var).

Lemma elem_of_collect_loop constraints (acc : list Var) x :
  x ∈ fold_left (fun vars_ c => vars_ ++ constraint_variables c)
        constraints acc
  <-> x ∈ acc \/ exists c, c ∈ constraints /\ x ∈ constraint_variables c.
Proof.
  revert acc. induction constraints as [|c constraints IH]; intros acc; cbn.
  - split; [auto |]. intros [Hx | (c & Hc & _)]; [exact Hx |].
    apply elem_of_nil in Hc. contradiction.
  - rewrite IH, elem_of_app. split.
    + intros [[Hx | Hx] | (c' & Hc' & Hx)]; eauto.
      * right. exists c. split; [left | exact Hx].
      * right. exists c'. split; [right; exact Hc' | exact Hx].
    + intros [Hx | (c' & Hc' & Hx)]; [auto |].
      apply elem_of_cons in Hc' as [-> | Hc']; eauto.
Qed.

(** [vars_] holds the variables of the objective and of every constraint. *)
Lemma elem_of_collect_variables objective constraints x :
  x ∈ collect_variables objective_variables constraint_variables
        objective constraints
  <-> x ∈ objective_variables objective
      \/ exists c, c ∈ constraints /\ x ∈ constraint_variables c.
Proof. apply elem_of_collect_loop. Qed.

Lemma get_sym_data_fields objective constraints :
  let vars_ :=
    list_set (collect_variables objective_variables constraint_variables
                objective constraints) in
  let sd := get_sym_data objective_variables constraint_variables list_set
              objective constraints in
  constr_map_EQ sd = constraints
  /\ var_offsets sd = (get_var_offsets vars_).1.1
  /\ var_sizes sd = (get_var_offsets vars_).1.2
  /\ x_length sd = (get_var_offsets vars_).2.
Proof.
  cbn zeta. unfold get_sym_data.
  destruct (get_var_offsets _) as [[offsets sizes] total]. cbn. auto.
Qed.

Lemma in_range_prefix (variables : list Var) i x k :
  NoDup (map var.id variables) ->
  variables !! i = Some x ->
  in_range (get_var_offsets variables).1.1 x k
  <-> prefix_size variables i <= k < prefix_size variables i + flat_size x.
Proof.
  intros Hnd Hi.
  destruct (get_var_offsets_lookup variables i x Hnd Hi) as [Ho _].
  unfold in_range. split.
  - intros (o & Ho' & Hr). rewrite Ho in Ho'. injection Ho' as <-. exact Hr.
  - intros Hr. eauto.
Qed.

(** The symbolic data of a problem whose variable objects have their own
    identifiers, when [list(set(...))] lists each of them once: the
    constraints are kept, every variable of the objective or of a
    constraint has an offset and its size, a variable that occurs several
    times is counted once in the length, and every position below the
    length belongs to exactly one of the variables. *)
Theorem get_sym_data_partition objective constraints :
  let vars_ := collect_variables objective_variables constraint_variables
                 objective constraints in
  let sd := get_sym_data objective_variables constraint_variables list_set
              objective constraints in
  NoDup (list_set vars_) ->
  (forall x, x ∈ list_set vars_ <-> x ∈ vars_) ->
  (forall x y, x ∈ vars_ -> y ∈ vars_ -> var.id x = var.id y -> x = y) ->
  constr_map_EQ sd = constraints
  /\ x_length sd = sum_list_with flat_size (list_set vars_)
  /\ (forall x,
        x ∈ objective_variables objective
        \/ (exists c, c ∈ constraints /\ x ∈ constraint_variables c) ->
        exists o, var_offsets sd !! var.id x = Some o
          /\ var_sizes sd !! var.id x = Some (var.size x)
          /\ o + flat_size x <= x_length sd)
  /\ (forall k, k < x_length sd ->
        exists x, x ∈ vars_ /\ in_range (var_offsets sd) x k
          /\ forall y, y ∈ vars_ -> in_range (var_offsets sd) y k -> y = x).
Proof.
  intros vars_ sd Hnd Hset Hinj.
  destruct (get_sym_data_fields objective constraints)
    as (Hc & Ho & Hs & Hn).
  fold vars_ sd in Hc, Ho, Hs, Hn.
  assert (Hids : NoDup (map var.id (list_set vars_))).
  { apply (NoDup_fmap_2_strong var.id); [| exact Hnd].
    intros x y Hx Hy. apply Hinj; apply Hset; assumption. }
  rewrite Ho, Hs, Hn, get_var_offsets_length.
  split; [exact Hc |]. split; [reflexivity |]. split.
  - intros x Hx. apply elem_of_collect_variables in Hx.
    apply Hset, list_elem_of_lookup in Hx as [i Hi].
    destruct (get_var_offsets_lookup _ i x Hids Hi) as [Hox Hsx].
    exists (prefix_size (list_set vars_) i).
    split; [exact Hox |]. split; [exact Hsx |].
    pose proof (prefix_size_mono _ i (length (list_set vars_)) x Hi
                  (lookup_lt_Some _ _ _ Hi)) as Hle.
    rewrite prefix_size_all in Hle. exact Hle.
  - intros k Hk.
    destruct (prefix_size_cover _ k Hk) as (i & x & Hi & Hr).
    exists x. split; [| split].
    + apply Hset, list_elem_of_lookup. eauto.
    + apply (in_range_prefix _ i x k Hids Hi), Hr.
    + intros y Hy Hry.
      apply Hset, list_elem_of_lookup in Hy as [j Hj].
      apply (in_range_prefix _ j y k Hids Hj) in Hry.
      destruct (Nat.lt_trichotomy j i) as [Hlt | [Heq | Hgt]].
      * pose proof (prefix_size_mono _ j i y Hj Hlt). lia.
      * subst j. rewrite Hj in Hi. injection Hi as ->. reflexivity.
      * pose proof (prefix_size_mono _ i j x Hi Hgt). lia.
Qed.
End SymDataFacts.

Section SplitConstrFacts.
Context {expr : Type}.
Variable objective_variables : Objective expr -> list Var.
Variable constraint_variables : Constraint expr -> list Var.
Variable list_set : list Var -> list Var.
Variables EQ LEQ : string.

(** The dictionary of the symbolic data has the key [s.EQ] alone: indexing
    it with [s.EQ] gives the constraints, and [split_constr] raises the
    KeyError of [s.LEQ]. *)
Theorem split_constr_sym_data (objective : Objective expr)
    (constraints : list (Constraint expr)) :
  let sd := get_sym_data objective_variables constraint_variables list_set
              objective constraints in
  EQ <> LEQ ->
  getitem (constr_map EQ sd) EQ = Found constraints
  /\ split_constr EQ LEQ (constr_map EQ sd) = KeyError LEQ.
Proof.
  intros sd Hne.
  destruct (get_sym_data_fields objective_variables constraint_variables
              list_set objective constraints) as (Hc & _).
  fold sd in Hc.
  unfold split_constr, getitem, constr_map.
  rewrite lookup_singleton_eq, lookup_singleton_ne by exact Hne.
  rewrite Hc. auto.
Qed.

(** With an entry for [s.LEQ] the split succeeds: the equality part is the
    constraint list of the symbolic data and the third part is empty. *)
Lemma split_constr_with_inequalities (objective : Objective expr)
    (constraints ineq : list (Constraint expr)) :
  let sd := get_sym_data objective_variables constraint_variables list_set
              objective constraints in
  EQ <> LEQ ->
  split_constr EQ LEQ (<[LEQ := ineq]> (constr_map EQ sd))
  = Found (constraints, ineq, []).
Proof.
  intros sd Hne.
  destruct (get_sym_data_fields objective_variables constraint_variables
              list_set objective constraints) as (Hc & _).
  fold sd in Hc.
  unfold split_constr, getitem, constr_map.
  rewrite lookup_insert_ne, lookup_singleton_eq, lookup_insert_eq
    by (intros Heq; apply Hne; symmetry; exact Heq).
  rewrite Hc. reflexivity.
Qed.
End SplitConstrFacts.

(** The sample problem: [x7] and [x8] in the objective, [x8] and [x9] in
    the constraint; [x8] is counted once, and the length is 1 + 6 + 4. *)
Lemma get_sym_data_partition_witness :
  let vars_ := collect_variables sample_objective_variables
                 sample_constraint_variables objective_1 [constraint_1] in
  let sd := get_sym_data sample_objective_variables
              sample_constraint_variables remove_dups objective_1
              [constraint_1] in
  constr_map_EQ sd = [constraint_1]
  /\ x_length sd = sum_list_with flat_size (remove_dups vars_)
  /\ (forall x,
        x ∈ sample_objective_variables objective_1
        \/ (exists c, c ∈ [constraint_1]
                      /\ x ∈ sample_constraint_variables c) ->
        exists o, var_offsets sd !! var.id x = Some o
          /\ var_sizes sd !! var.id x = Some (var.size x)
          /\ o + flat_size x <= x_length sd)
  /\ (forall k, k < x_length sd ->
        exists x, x ∈ vars_ /\ in_range (var_offsets sd) x k
          /\ forall y, y ∈ vars_ -> in_range (var_offsets sd) y k -> y = x).
Proof.
  apply (get_sym_data_partition sample_objective_variables
           sample_constraint_variables remove_dups objective_1
           [constraint_1]).
  - apply NoDup_remove_dups.
  - intros x. apply elem_of_remove_dups.
  - intros x y Hx Hy.
    change (x ∈ [x7; x8; x8; x9]) in Hx. change (y ∈ [x7; x8; x8; x9]) in Hy.
    repeat (apply elem_of_cons in Hx as [-> | Hx]);
      try (apply elem_of_nil in Hx; contradiction);
      repeat (apply elem_of_cons in Hy as [-> | Hy]);
      try (apply elem_of_nil in Hy; contradiction);
      intros Hid; try reflexivity; discriminate Hid.
Defined.

Example get_sym_data_sample :
  x_length (get_sym_data sample_objective_variables
              sample_constraint_variables remove_dups objective_1
              [constraint_1]) = 11.
Proof. vm_compute. reflexivity. Qed.

Lemma split_constr_sym_data_witness :
  let sd := get_sym_data sample_objective_variables
              sample_constraint_variables remove_dups objective_1
              [constraint_1] in
  getitem (constr_map "eq" sd) "eq" = Found [constraint_1]
  /\ split_constr "eq" "ineq" (constr_map "eq" sd) = KeyError "ineq".
Proof.
  apply (split_constr_sym_data sample_objective_variables
           sample_constraint_variables remove_dups "eq" "ineq" objective_1
           [constraint_1]).
  discriminate.
Defined.

(** * Singular systems *)

(** ** solve on a singular system, with the solver that returns nan *)

(** C1: the spec's example of a singular system, [P = 0], [q = 0] and one
    constraint row [A = 0], [b = 0].  The solver does not raise on the
    matrix [[0, 0], [0, 0]]; it returns nan in every entry, so the handler of
    [solve] is not entered: the result has status "optimal", with nan as
    primal, dual and objective value, and not the status "infeasible" that
    a numeric failure is to give. *)
Theorem solve_singular_system_not_infeasible :
  exists d,
    solve nan_utilities nan_SLA objective_0 [zero_row_constraint] sym_data_1
      = Ok d
    /\ d !! s.STATUS = Some (PyStr s.OPTIMAL)
    /\ d !! s.STATUS <> Some (PyStr s.INFEASIBLE)
    /\ d !! s.PRIMAL = Some (PyArray [None])
    /\ d !! s.EQ_DUAL = Some (PyArray [None])
    /\ d !! s.VALUE = Some (PyFloat None).
Proof.
  eexists. split; [vm_compute; reflexivity |].
  split; [vm_compute; reflexivity |].
  split; [vm_compute; discriminate |].
  split; [vm_compute; reflexivity |].
  split; vm_compute; reflexivity.
Qed.

(** ** An empty constraint list and a constraint row of zeros *)

(** C9 fails as stated.  For [objective_1] the solver returns the primal
    [-1] with value 3 on the empty constraint list; the matrix assembled for
    the constraint row of zeros is [[2, 0], [0, 0]], for which it returns
    nan: the primal and the value of that result are nan. *)
Lemma zero_row_constraint_counterexample :
  primal_and_value (solve nan_utilities nan_SLA objective_1 [] sym_data_1)
  <> primal_and_value
       (solve nan_utilities nan_SLA objective_1 [zero_row_constraint]
          sym_data_1).
Proof. intros Heq. vm_compute in Heq. discriminate Heq. Qed.

Example solve_zero_row_constraint_nan :
  exists d,
    solve nan_utilities nan_SLA objective_1 [zero_row_constraint] sym_data_1
      = Ok d
    /\ d !! s.STATUS = Some (PyStr s.OPTIMAL)
    /\ d !! s.PRIMAL = Some (PyArray [None])
    /\ d !! s.VALUE = Some (PyFloat None).
Proof.
  eexists. split; [vm_compute; reflexivity |].
  split; [vm_compute; reflexivity |].
  split; vm_compute; reflexivity.
Qed.

Section BorderedSystem.
Context {R : Type} `{Scalar R}.
Implicit Types (P q : matrix R) (sol : list R).

Lemma split_last_entry N sol :
  length sol = N + 1 -> exists nu, sol = firstn N sol ++ [nu].
Proof.
  intros Hlen.
  destruct (skipn N sol) as [| nu [| ? ?]] eqn:Hskip.
  - apply (f_equal length) in Hskip. rewrite length_skipn in Hskip.
    cbn in Hskip. lia.
  - exists nu. rewrite <- Hskip. symmetry. apply firstn_skipn.
  - apply (f_equal length) in Hskip. rewrite length_skipn in Hskip.
    cbn in Hskip. lia.
Qed.

Section Laws.
Hypothesis Radd_0_r : forall a : R, Radd a R0 = a.
Hypothesis Rmul_0_l : forall a : R, Rmul R0 a = R0.
Hypothesis Ropp_0 : Ropp R0 = R0.

(** A solution of [P x = -q], followed by any entry, solves the bordered
    system. *)
Lemma zero_row_solution_extends N P q sol :
  has_shape N N P = true ->
  length sol = N + 1 ->
  column (matvec P (firstn N sol)) = mneg q ->
  column (matvec (map (fun row => row ++ [R0]) P ++ [repeat R0 (N + 1)]) sol)
    = mneg q ++ [[Ropp R0]].
Proof using Radd_0_r Rmul_0_l Ropp_0.
  intros [HPlen HProws]%has_shape_spec Hlen Hx.
  destruct (split_last_entry N sol Hlen) as [nu Hsol].
  unfold matvec. rewrite map_app, column_app. cbn [map column].
  rewrite (dot_zero_row Radd_0_r Rmul_0_l), Ropp_0. f_equal.
  rewrite <- Hx. unfold matvec. rewrite map_map. f_equal.
  apply map_ext_in. intros row Hrow.
  rewrite Hsol at 1. apply (dot_extended Radd_0_r Rmul_0_l).
  rewrite (HProws row Hrow), length_firstn. lia.
Qed.
End Laws.
End BorderedSystem.

Section BranchSystems.
Context {R : Type} `{Scalar R} {expr : Type}.
Variable u : Utilities R expr.
Implicit Types (objective : Objective expr)
  (sym_data : SymData (Constraint expr)).

(** C9, amended: for the same [P], [q] and [r], the empty constraint list
    hands the solver [P x = -q], and a single constraint row of zeros hands
    it the bordered system [[P, 0], [0, 0]] [x; nu] = [-q; -0].  The two
    have the same primal solutions: a vector of [N + 1] entries solves the
    bordered system exactly when its first [N] entries solve [P x = -q].
    The bordered matrix ends in a row of zeros and every row of it ends in
    a zero, so it is singular.  The scalars satisfy [a + 0 = a],
    [0 * a = 0] and [-0 = 0]. *)
Theorem zero_row_constraint_systems objective (c : Constraint expr)
    sym_data :
  let N := x_length sym_data in
  let id_map := var_offsets sym_data in
  let M := quad_coeffs u (args0 objective) id_map N in
  let P := quad_P M N in
  let q := quad_q M N in
  let AA := fst (solve_system u objective [c] sym_data) in
  let BB := snd (solve_system u objective [c] sym_data) in
  (forall a : R, Radd a R0 = a) ->
  (forall a : R, Rmul R0 a = R0) ->
  Ropp R0 = R0 ->
  has_shape (S N) (S N) M = true ->
  affine_coeffs u (_expr c) id_map N = (zeros 1 N, zeros 1 1) ->
  solve_system u objective [] sym_data = (P, mneg q)
  /\ AA = map (fun row => row ++ [R0]) P ++ [repeat R0 (N + 1)]
  /\ BB = mneg q ++ [[Ropp R0]]
  /\ forall sol, length sol = N + 1 ->
       (column (matvec AA sol) = BB
        <-> column (matvec P (firstn N sol)) = mneg q).
Proof.
  intros N id_map M P q AA BB Hadd Hmul Hopp HM Hc.
  pose proof (quad_P_shape M N HM) as HP.
  pose proof (quad_q_shape M N HM) as Hq.
  assert (Hsys : solve_system u objective [c] sym_data
                 = (map (fun row => row ++ [R0]) P ++ [repeat R0 (N + 1)],
                    mneg q ++ [[Ropp R0]])).
  { unfold solve_system. cbn [length map Nat.ltb Nat.leb].
    fold N id_map M P q. rewrite Hc, repeat_app.
    apply assemble_zero_row, HP. }
  unfold AA, BB. rewrite Hsys. cbn [fst snd].
  split; [reflexivity |]. split; [reflexivity |]. split; [reflexivity |].
  intros sol Hlen. split.
  - intros Hsol. rewrite repeat_app in Hsol.
    apply (zero_row_solution_restricts Hadd Hmul N P q sol); assumption.
  - apply (zero_row_solution_extends Hadd Hmul Hopp); assumption.
Qed.
End BranchSystems.

(** [objective_1] in exact arithmetic: [[2]] [x] = [-2] against
    [[2, 0], [0, 0]] [x; nu] = [-2; 0]. *)
Lemma zero_row_constraint_systems_witness :
  let P := quad_P [[Q2Qc 2; Q2Qc 1]; [Q2Qc 3; Q2Qc 5]] 1 in
  let q := quad_q [[Q2Qc 2; Q2Qc 1]; [Q2Qc 3; Q2Qc 5]] 1 in
  let AA :=
    fst (solve_system coeff_utilities objective_1 [zero_row_constraint]
           sym_data_1) in
  let BB :=
    snd (solve_system coeff_utilities objective_1 [zero_row_constraint]
           sym_data_1) in
  solve_system coeff_utilities objective_1 [] sym_data_1 = (P, mneg q)
  /\ AA = map (fun row => row ++ [R0]) P ++ [repeat R0 (1 + 1)]
  /\ BB = mneg q ++ [[Ropp R0]]
  /\ forall sol, length sol = 1 + 1 ->
       (column (matvec AA sol) = BB
        <-> column (matvec P (firstn 1 sol)) = mneg q).
Proof.
  apply (zero_row_constraint_systems (H:=Qc_Scalar) coeff_utilities
           objective_1 zero_row_constraint sym_data_1).
  - intros a. apply Qcplus_0_r.
  - intros a. apply Qcmult_0_l.
  - apply Qc_is_canon. reflexivity.
  - reflexivity.
  - reflexivity.
Defined.
